(** * The dictionary trace encoder (format 0.5) of dd-trace

    A shallow embedding of [packages/dd-trace/src/encode/0.5.js]: the
    [AgentEncoder] that interns every string of a batch in a string table
    and writes the spans with indices into that table.

    The class extends the encoder of format 0.4, whose file is not part of
    the sources at hand.  The methods it inherits are modelled from the
    specification and are marked as such; the five methods of 0.5.js
    ([makePayload], [_encode], [_encodeString], [_cacheString],
    [_writeStrings]) are transcribed from the code. *)

From Stdlib Require Import ZArith Lia.
From stdpp Require Import gmap strings list fin_maps pretty.

(** ** Values *)

(** Bytes are integers in [0, 256); a typed-array store keeps the low eight
    bits of what it is given. *)
Definition u8 (v : Z) : Z := (v `mod` 256)%Z.

(** The [n] low bytes of [v], most significant first (two's complement for a
    negative [v]). *)
Fixpoint be_bytes (n : nat) (v : Z) : list Z :=
  match n with
  | O => []
  | S k => u8 (Z.shiftr v (8 * Z.of_nat k)) :: be_bytes k v
  end.

(** A string is the sequence of its UTF-8 bytes. *)
Definition string_bytes (value : string) : list Z :=
  (λ c, Z.of_nat (Ascii.nat_of_ascii c)) <$> String.list_ascii_of_string value.

(** A value of a tag map: a string ([meta]) or a number ([metrics]); a number
    is carried as the 64 bits of its binary64 representation. *)
Inductive MapValue :=
  | MString (s : string)
  | MNumber (bits : Z).

(** A JavaScript object used as a map, in the iteration order of its keys. *)
Definition TagMap := list (string * MapValue).

(** A span.  A field that may be absent is an [option]: [None] is
    JavaScript's [undefined]. *)
Record Span := mkSpan {
  service : option string;
  name : option string;
  resource : option string;
  trace_id : Z;
  span_id : Z;
  parent_id : Z;
  start : option Z;
  duration : option Z;
  error : option Z;
  meta : option TagMap;
  metrics : option TagMap;
  type : option string
}.

Definition Trace := list Span.

(** [v || d] on a number or [undefined]: [undefined] and [0] are falsy. *)
Definition or_number (v : option Z) (d : Z) : option Z :=
  match v with
  | Some n => if (n =? 0)%Z then Some d else Some n
  | None => Some d
  end.

(** [v || d] on an object or [undefined]: every object is truthy. *)
Definition or_object (v : option TagMap) (d : TagMap) : TagMap :=
  match v with
  | Some m => m
  | None => d
  end.

(** ** The encoder and its effects *)

(** The instance fields of the encoder.  A chunk is the list of the bytes
    written to it so far (the first [length] bytes of its backing store). *)
Record AgentEncoder := mkEncoder {
  _traceBytes : list Z;
  _stringBytes : list Z;
  _stringMap : gmap string Z;
  _stringCount : Z;
  _traceCount : Z
}.

(** The [bytes] argument of the encoding methods is a reference to one of the
    two chunks of the encoder. *)
Inductive ChunkRef := TraceBytes | StringBytes.

Definition chunk (bytes : ChunkRef) (this : AgentEncoder) : list Z :=
  match bytes with
  | TraceBytes => _traceBytes this
  | StringBytes => _stringBytes this
  end.

Definition chunk_append (bytes : ChunkRef) (bs : list Z) (this : AgentEncoder)
  : AgentEncoder :=
  match bytes with
  | TraceBytes =>
      mkEncoder (_traceBytes this ++ bs) (_stringBytes this) (_stringMap this)
        (_stringCount this) (_traceCount this)
  | StringBytes =>
      mkEncoder (_traceBytes this) (_stringBytes this ++ bs) (_stringMap this)
        (_stringCount this) (_traceCount this)
  end.

Inductive Error :=
  | SchemaViolation
  | RangeViolation.

Inductive Result (A : Type) :=
  | Ok (a : A)
  | Throw (e : Error).
Arguments Ok {A} a.
Arguments Throw {A} e.

(** A method: it reads and updates the encoder, and returns or throws. *)
Definition Method (A : Type) : Type := AgentEncoder → Result (A * AgentEncoder).

Definition ret {A} (a : A) : Method A := λ this, Ok (a, this).

Definition bind {A B} (m : Method A) (k : A → Method B) : Method B :=
  λ this,
    match m this with
    | Ok (a, this') => k a this'
    | Throw e => Throw e
    end.

Definition throw {A} (e : Error) : Method A := λ _, Throw e.

Definition modify (f : AgentEncoder → AgentEncoder) : Method unit :=
  λ this, Ok (tt, f this).

Declare Scope method_scope.
Delimit Scope method_scope with method.
Notation "m1 ;;; m2" := (bind m1 (λ _, m2))
  (at level 100, m2 at level 200, right associativity) : method_scope.
Open Scope method_scope.

(** [for (const x of l) body(x)] *)
Fixpoint for_of {A} (l : list A) (body : A → Method unit) : Method unit :=
  match l with
  | [] => ret tt
  | x :: l' => body x ;;; for_of l' body
  end.

(** ** The inherited methods *)

(** Modelled from the spec: [Chunk.write] of the format 0.4 encoder's chunk
    (absent), "its raw bytes are appended to the string-byte region". *)
Definition write (bytes : ChunkRef) (value : string) : Method unit :=
  modify (chunk_append bytes (string_bytes value)).

(** Modelled from the spec: [_encodeByte] of the format 0.4 encoder (absent),
    "writes one literal byte". *)
Definition _encodeByte (bytes : ChunkRef) (value : Z) : Method unit :=
  modify (chunk_append bytes [u8 value]).

(** Modelled from the spec: the integer family of [_encodeInteger] of the
    format 0.4 encoder (absent): "fixint for small non-negative values;
    8/16/32/64-bit unsigned or signed forms for larger magnitudes or negative
    values", the narrowest form that holds the value; [None] outside the range
    of the 64-bit forms. *)
Definition integer_bytes (n : Z) : option (list Z) :=
  if (n <? - 2 ^ 63)%Z then None
  else if (n <? - 2 ^ 31)%Z then Some (0xd3%Z :: be_bytes 8 n)
  else if (n <? - 2 ^ 15)%Z then Some (0xd2%Z :: be_bytes 4 n)
  else if (n <? - 2 ^ 7)%Z then Some (0xd1%Z :: be_bytes 2 n)
  else if (n <? 0)%Z then Some (0xd0%Z :: be_bytes 1 n)
  else if (n <? 2 ^ 7)%Z then Some [n]
  else if (n <? 2 ^ 8)%Z then Some (0xcc%Z :: be_bytes 1 n)
  else if (n <? 2 ^ 16)%Z then Some (0xcd%Z :: be_bytes 2 n)
  else if (n <? 2 ^ 32)%Z then Some (0xce%Z :: be_bytes 4 n)
  else if (n <? 2 ^ 64)%Z then Some (0xcf%Z :: be_bytes 8 n)
  else None.

(** Modelled from the spec: [_encodeInteger] of the format 0.4 encoder
    (absent).  A value that is not a number is a schema violation and one
    outside the supported range a contract violation; both fail at once. *)
Definition _encodeInteger (bytes : ChunkRef) (value : option Z) : Method unit :=
  match value with
  | None => throw SchemaViolation
  | Some n =>
      match integer_bytes n with
      | Some bs => modify (chunk_append bytes bs)
      | None => throw RangeViolation
      end
  end.

(** Modelled from the spec: the "fixed 64-bit unsigned form (never a narrower
    form)" of an identifier. *)
Definition id_bytes (id : Z) : option (list Z) :=
  if ((0 <=? id) && (id <? 2 ^ 64))%Z then Some (0xcf%Z :: be_bytes 8 id)
  else None.

(** Modelled from the spec: [_encodeId] of the format 0.4 encoder (absent). *)
Definition _encodeId (bytes : ChunkRef) (id : Z) : Method unit :=
  match id_bytes id with
  | Some bs => modify (chunk_append bytes bs)
  | None => throw RangeViolation
  end.

(** Modelled from the spec: the array header "appropriate to length (fixarray
    for ≤15 elements, 16-bit array header for ≤65535, 32-bit array header
    otherwise)". *)
Definition array_prefix_bytes (len : nat) : list Z :=
  let n := Z.of_nat len in
  if (n <=? 15)%Z then [Z.lor 0x90 n]
  else if (n <=? 65535)%Z then 0xdc%Z :: be_bytes 2 n
  else 0xdd%Z :: be_bytes 4 n.

(** Modelled from the spec: [_encodeArrayPrefix] of the format 0.4 encoder
    (absent); it is given the array and writes the header for its length. *)
Definition _encodeArrayPrefix {A} (bytes : ChunkRef) (value : list A)
  : Method unit :=
  modify (chunk_append bytes (array_prefix_bytes (length value))).

(** Modelled from the spec: "a map header sized to the key count". *)
Definition map_prefix_bytes (len : nat) : list Z :=
  let n := Z.of_nat len in
  if (n <=? 15)%Z then [Z.lor 0x80 n]
  else if (n <=? 65535)%Z then 0xde%Z :: be_bytes 2 n
  else 0xdf%Z :: be_bytes 4 n.

(** The binary64 form of a number. *)
Definition float_bytes (bits : Z) : list Z := 0xcb%Z :: be_bytes 8 bits.

(** ** The methods of 0.5.js *)

Definition ARRAY_OF_TWO : Z := 0x92.
Definition ARRAY_OF_TWELVE : Z := 0x9c.

(** The names every object inherits from [Object.prototype]. *)
Definition Object_prototype : list string :=
  [ "constructor"; "__defineGetter__"; "__defineSetter__"; "hasOwnProperty";
    "__lookupGetter__"; "__lookupSetter__"; "isPrototypeOf";
    "propertyIsEnumerable"; "toString"; "valueOf"; "__proto__";
    "toLocaleString" ]%string.

Definition inherited (key : string) : bool :=
  bool_decide (key ∈ Object_prototype).

(** [key in object]: the key is a property of the object itself or one it
    inherits.  The dictionary [_stringMap] holds the properties of the
    object itself. *)
Definition has_property (object : gmap string Z) (key : string) : Prop :=
  inherited key = true ∨ is_Some (object !! key).

(** [_cacheString (value)]: a value that is not in the dictionary object
    takes the count, which is then incremented, and the string is written to
    the string chunk. *)
Definition _cacheString (value : string) : Method unit :=
  λ this,
    if decide (inherited value = true ∨ is_Some (_stringMap this !! value))
    then ret tt this
    else
      (modify (λ this,
         mkEncoder (_traceBytes this) (_stringBytes this)
           (<[value := _stringCount this]> (_stringMap this))
           (_stringCount this + 1)%Z (_traceCount this)) ;;;
       write StringBytes value) this.

(** [_encodeString (bytes, value = '')]: the default applies to an absent
    argument; [this._stringMap[value]] is the number the dictionary holds for
    the value, and no number ([None]) otherwise: [undefined], or the member
    of [Object.prototype] of that name. *)
Definition _encodeString (bytes : ChunkRef) (value : option string)
  : Method unit :=
  let value := default ""%string value in
  _cacheString value ;;;
  λ this, _encodeInteger bytes (_stringMap this !! value) this.

(** Modelled from the spec: the value of a map entry, "string or number";
    a string goes through [this._encodeString], the method that this class
    overrides. *)
Definition _encodeValue (bytes : ChunkRef) (value : MapValue) : Method unit :=
  match value with
  | MString s => _encodeString bytes (Some s)
  | MNumber bits => modify (chunk_append bytes (float_bytes bits))
  end.

(** Modelled from the spec: [_encodeMap] of the format 0.4 encoder (absent),
    "a map header sized to the key count, followed by each key (string) and
    value (string or number) in iteration order". *)
Definition _encodeMap (bytes : ChunkRef) (value : TagMap) : Method unit :=
  modify (chunk_append bytes (map_prefix_bytes (length value))) ;;;
  for_of value (λ entry,
    _encodeString bytes (Some entry.1) ;;;
    _encodeValue bytes entry.2).

(** The body of the loop of [_encode], lines 31 to 43. *)
Definition _encode_span (bytes : ChunkRef) (span : Span) : Method unit :=
  _encodeByte bytes ARRAY_OF_TWELVE ;;;
  _encodeString bytes (service span) ;;;
  _encodeString bytes (name span) ;;;
  _encodeString bytes (resource span) ;;;
  _encodeId bytes (trace_id span) ;;;
  _encodeId bytes (span_id span) ;;;
  _encodeId bytes (parent_id span) ;;;
  _encodeInteger bytes (or_number (start span) 0) ;;;
  _encodeInteger bytes (or_number (duration span) 0) ;;;
  _encodeInteger bytes (error span) ;;;
  _encodeMap bytes (or_object (meta span) []) ;;;
  _encodeMap bytes (or_object (metrics span) []) ;;;
  _encodeString bytes (type span).

(** [_encode (bytes, trace)] *)
Definition _encode (bytes : ChunkRef) (trace : Trace) : Method unit :=
  _encodeArrayPrefix bytes trace ;;;
  for_of trace (_encode_span bytes).

(** ** Assembling the payload *)

(** [Buffer.allocUnsafe (size)]: a buffer of [size] bytes whose contents are
    whatever the memory [heap] held. *)
Definition allocUnsafe (heap : nat → Z) (size : nat) : list Z :=
  heap <$> seq 0 size.

(** Stores the bytes [bs] from index [offset] on; a store past the end of a
    buffer is dropped. *)
Fixpoint write_at (buffer : list Z) (offset : nat) (bs : list Z) : list Z :=
  match bs with
  | [] => buffer
  | b :: bs' => write_at (<[offset := b]> buffer) (S offset) bs'
  end.

(** [source.copy (target, targetStart, sourceStart, sourceEnd)] of Node's
    [Buffer]: copies as many bytes as fit in the target and returns their
    number. *)
Definition copy (source target : list Z) (targetStart sourceStart sourceEnd : nat)
  : list Z * nat :=
  let region := take (sourceEnd - sourceStart) (drop sourceStart source) in
  let n := length region `min` (length target - targetStart) in
  (write_at target targetStart (take n region), n).

(** Modelled from the spec: [_writeArrayPrefix] of the format 0.4 encoder
    (absent).  Of the array headers of the spec it writes the 32-bit one, tag
    [0xdd] and the count in four bytes: the one that fills the five bytes
    [makePayload] reserves for the header of each table. *)
Definition _writeArrayPrefix (buffer : list Z) (offset : nat) (count : Z)
  : list Z * nat :=
  (write_at buffer offset (0xdd%Z :: be_bytes 4 count), offset + 5).

(** [_writeStrings (buffer, offset)] *)
Definition _writeStrings (this : AgentEncoder) (buffer : list Z) (offset : nat)
  : list Z * nat :=
  let '(buffer, offset) := _writeArrayPrefix buffer offset (_stringCount this) in
  let '(buffer, copied) :=
    copy (_stringBytes this) buffer offset 0 (length (_stringBytes this)) in
  (buffer, offset + copied).

(** Modelled from the spec: [_writeTraces] of the format 0.4 encoder (absent),
    "then the trace-table section": the header for the number of traces and
    the trace-byte region. *)
Definition _writeTraces (this : AgentEncoder) (buffer : list Z) (offset : nat)
  : list Z * nat :=
  let '(buffer, offset) := _writeArrayPrefix buffer offset (_traceCount this) in
  let '(buffer, copied) :=
    copy (_traceBytes this) buffer offset 0 (length (_traceBytes this)) in
  (buffer, offset + copied).

(** Modelled from the spec: [_reset] of the format 0.4 encoder (absent),
    "resets batch state (trace-byte region, string-byte region, dictionary,
    counters) to empty". *)
Definition _reset (this : AgentEncoder) : AgentEncoder :=
  mkEncoder [] [] ∅ 0 0.

(** Modelled from the spec: the constructor of the format 0.4 encoder
    (absent); "a Batch is created empty". *)
Definition new_AgentEncoder : AgentEncoder :=
  mkEncoder [] [] ∅ 0 0.

(** Modelled from the spec: [encode (trace)] of the format 0.4 encoder
    (absent): one more trace is counted and its encoding is appended to the
    trace-byte region. *)
Definition encode (trace : Trace) : Method unit :=
  modify (λ this,
    mkEncoder (_traceBytes this) (_stringBytes this) (_stringMap this)
      (_stringCount this) (_traceCount this + 1)%Z) ;;;
  _encode TraceBytes trace.

(** The size [makePayload] computes for its buffer, lines 10 to 13. *)
Definition payload_size (this : AgentEncoder) : nat :=
  let prefixSize := 1 in
  let stringSize := length (_stringBytes this) + 5 in
  let traceSize := length (_traceBytes this) + 5 in
  prefixSize + stringSize + traceSize.

(** The stores of [makePayload], lines 15 to 20: the buffer and the offset
    after the last of them. *)
Definition fill_payload (this : AgentEncoder) (buffer : list Z) : list Z * nat :=
  let offset := 0 in
  let buffer := <[offset := u8 ARRAY_OF_TWO]> buffer in
  let offset := offset + 1 in
  let '(buffer, offset) := _writeStrings this buffer offset in
  let '(buffer, offset) := _writeTraces this buffer offset in
  (buffer, offset).

(** [makePayload ()]: the buffer returned and the encoder after the reset. *)
Definition makePayload (heap : nat → Z) (this : AgentEncoder)
  : list Z * AgentEncoder :=
  let buffer := allocUnsafe heap (payload_size this) in
  let '(buffer, offset) := fill_payload this buffer in
  let this := _reset this in
  (buffer, this).

(** The traces of a batch, encoded one after the other. *)
Definition encode_all (traces : list Trace) : Method unit :=
  for_of traces encode.

(** ** The scenario of the specification *)

Definition span_a : Span :=
  mkSpan (Some "web") (Some "GET /a") None 1 1 0 None None (Some 0%Z)
    None None (Some "").
Definition span_b : Span :=
  mkSpan (Some "web") (Some "GET /b") None 1 2 0 None None (Some 0%Z)
    None None (Some "").


(** ** The string table and the wire format, as the specification words them *)

(** Interning: a string seen before leaves the table as it is, a new one goes
    to its end. *)
Definition intern (table : list string) (value : string) : list string :=
  if decide (value ∈ table) then table else table ++ [value].

(** The distinct strings of a sequence, in the order of their first
    occurrence. *)
Fixpoint first_seen (l : list string) : list string :=
  match l with
  | [] => []
  | x :: l' => x :: filter (λ y, y ≠ x) (first_seen l')
  end.

(** The dictionary of an encoder holds the string table [table]: the strings
    are distinct, the index of a string is its position, the count is the
    length of the table, and the string-byte region is the strings written
    one after the other. *)
Record dict_inv (table : list string) (this : AgentEncoder) : Prop := {
  dict_nodup : NoDup table;
  dict_count : _stringCount this = Z.of_nat (length table);
  dict_lookup : ∀ v i,
    _stringMap this !! v = Some i ↔ (0 ≤ i)%Z ∧ table !! Z.to_nat i = Some v;
  dict_bytes : _stringBytes this = mjoin (string_bytes <$> table)
}.

(** A piece of the trace region, given the dictionary that resolves its
    string indices; [None] when a value has no encoding. *)
Definition Wire := gmap string Z → option (list Z).

Definition wire_bytes (bs : option (list Z)) : Wire := λ _, bs.

Definition wire_integer (value : option Z) : Wire := λ _, value ≫= integer_bytes.

(** A string field: the index of the string, as an integer; an absent string
    is the empty string. *)
Definition wire_index (value : option string) : Wire :=
  λ d, d !! default ""%string value ≫= integer_bytes.

Definition wire_seq (ws : list Wire) : Wire :=
  λ d, mjoin <$> mapM (λ w : Wire, w d) ws.

Definition wire_value (value : MapValue) : Wire :=
  match value with
  | MString s => wire_index (Some s)
  | MNumber bits => wire_bytes (Some (float_bytes bits))
  end.

Definition wire_map (value : TagMap) : Wire :=
  wire_seq (wire_bytes (Some (map_prefix_bytes (length value))) ::
            ((λ entry : string * MapValue,
                wire_seq [wire_index (Some entry.1); wire_value entry.2])
             <$> value)).

(** The twelve fields of a span, in the order of the wire format. *)
Definition span_fields (span : Span) : list Wire :=
  [ wire_index (service span);
    wire_index (name span);
    wire_index (resource span);
    wire_bytes (id_bytes (trace_id span));
    wire_bytes (id_bytes (span_id span));
    wire_bytes (id_bytes (parent_id span));
    wire_integer (or_number (start span) 0);
    wire_integer (or_number (duration span) 0);
    wire_integer (error span);
    wire_map (or_object (meta span) []);
    wire_map (or_object (metrics span) []);
    wire_index (type span) ].

Definition span_wire (span : Span) : Wire :=
  wire_seq (wire_bytes (Some [ARRAY_OF_TWELVE]) :: span_fields span).

Definition trace_wire (trace : Trace) : Wire :=
  wire_seq (wire_bytes (Some (array_prefix_bytes (length trace))) ::
            (span_wire <$> trace)).

Definition batch_wire (traces : list Trace) : Wire :=
  wire_seq (trace_wire <$> traces).

(** The strings a value hands to [_encodeString], in the order of the calls. *)
Definition value_strings (value : MapValue) : list string :=
  match value with
  | MString s => [s]
  | MNumber _ => []
  end.

Definition map_strings (value : TagMap) : list string :=
  mjoin ((λ entry : string * MapValue, entry.1 :: value_strings entry.2)
         <$> value).

(** The four string fields of a span; an absent one is the empty string. *)
Definition string_fields (span : Span) : list string :=
  [ default ""%string (service span); default ""%string (name span);
    default ""%string (resource span); default ""%string (type span) ].

Definition span_strings (span : Span) : list string :=
  [ default ""%string (service span); default ""%string (name span);
    default ""%string (resource span) ] ++
  map_strings (or_object (meta span) []) ++
  map_strings (or_object (metrics span) []) ++
  [ default ""%string (type span) ].

Definition trace_strings (trace : Trace) : list string :=
  mjoin (span_strings <$> trace).

Definition batch_strings (traces : list Trace) : list string :=
  mjoin (trace_strings <$> traces).

(** What a method does to the dictionary and to the trace region: it interns
    the strings [strs] in that order, leaves the count of traces alone and
    appends the bytes of [w] under the dictionary it leaves behind. *)
Definition tracks (m : Method unit) (strs : list string) (w : Wire) : Prop :=
  ∀ table this this',
    dict_inv table this →
    m this = Ok (tt, this') →
    dict_inv (foldl intern table strs) this' ∧
    _traceCount this' = _traceCount this ∧
    ∃ bs, w (_stringMap this') = Some bs ∧
          _traceBytes this' = _traceBytes this ++ bs.

(** A wire that stays the same when the dictionary grows. *)
Definition wire_mono (w : Wire) : Prop :=
  ∀ d d' bs, d ⊆ d' → w d = Some bs → w d' = Some bs.

(** The header of a table as the specification sizes it: "each table's header
    size depends on the element count per the array-prefix width rule". *)
Definition spec_header_size (count : Z) : nat :=
  if (count <=? 15)%Z then 1
  else if (count <=? 65535)%Z then 3
  else 5.

(** The size of the payload as the specification computes it. *)
Definition spec_payload_size (this : AgentEncoder) : nat :=
  1 + (spec_header_size (_stringCount this) + length (_stringBytes this))
    + (spec_header_size (_traceCount this) + length (_traceBytes this)).

(** The state of a fresh encoder after a batch, when every trace encodes. *)
Definition run (traces : list Trace) : option AgentEncoder :=
  match encode_all traces new_AgentEncoder with
  | Ok (_, this) => Some this
  | Throw _ => None
  end.

(** The batch of the scenario: one trace of two spans. *)
Definition scenario : list Trace := [[span_a; span_b]].

(** The encoder after the batch of the scenario. *)
Definition scenario_encoder : AgentEncoder :=
  default new_AgentEncoder (run scenario).

(** The encoder after the two spans of the scenario, each in a trace of its
    own. *)
Definition scenario_encoder_two : AgentEncoder :=
  default new_AgentEncoder (run [[span_a]; [span_b]]).

(** The two sections of a payload: the header of a table and its region. *)
Definition string_table_section (this : AgentEncoder) : list Z :=
  (0xdd%Z :: be_bytes 4 (_stringCount this)) ++ _stringBytes this.

Definition trace_table_section (this : AgentEncoder) : list Z :=
  (0xdd%Z :: be_bytes 4 (_traceCount this)) ++ _traceBytes this.

(** The payload of a batch without traces. *)
Definition empty_payload : list Z :=
  [0x92; 0xdd; 0; 0; 0; 0; 0xdd; 0; 0; 0; 0]%Z.

(** An encoder at the start of a batch: just constructed, or just flushed. *)
Definition fresh (this : AgentEncoder) : Prop :=
  this = new_AgentEncoder ∨ ∃ heap used, this = (makePayload heap used).2.

(** A span with other values in some of its fields. *)
Definition with_strings (span : Span) (service' name' resource' type' : option string)
  : Span :=
  mkSpan service' name' resource' (trace_id span) (span_id span)
    (parent_id span) (start span) (duration span) (error span) (meta span)
    (metrics span) type'.

Definition with_start (span : Span) (value : option Z) : Span :=
  mkSpan (service span) (name span) (resource span) (trace_id span)
    (span_id span) (parent_id span) value (duration span) (error span)
    (meta span) (metrics span) (type span).

Definition with_duration (span : Span) (value : option Z) : Span :=
  mkSpan (service span) (name span) (resource span) (trace_id span)
    (span_id span) (parent_id span) (start span) value (error span)
    (meta span) (metrics span) (type span).

Definition with_error (span : Span) (value : option Z) : Span :=
  mkSpan (service span) (name span) (resource span) (trace_id span)
    (span_id span) (parent_id span) (start span) (duration span) value
    (meta span) (metrics span) (type span).

(** The values the encoders of identifiers and integers take. *)
Definition id_ok (id : Z) : Prop := (0 ≤ id < 2 ^ 64)%Z.

Definition integer_ok (n : Z) : Prop := (- 2 ^ 63 ≤ n < 2 ^ 64)%Z.

(** A span that keeps to the contract of the encoder: identifiers and
    integers in range, and an error that is present. *)
Definition valid_span (span : Span) : Prop :=
  id_ok (trace_id span) ∧ id_ok (span_id span) ∧ id_ok (parent_id span) ∧
  (∀ n, start span = Some n → integer_ok n) ∧
  (∀ n, duration span = Some n → integer_ok n) ∧
  (∃ n, error span = Some n ∧ integer_ok n).

(** Strings that are no names the dictionary object inherits. *)
Definition own_names (strs : list string) : Prop :=
  Forall (λ v, inherited v = false) strs.

(** A method that returns whenever the strings [strs] are no inherited names
    and the table, with these strings added to it, stays within the indices
    an integer can hold. *)
Definition returns (m : Method unit) (strs : list string) : Prop :=
  ∀ table this,
    dict_inv table this →
    own_names strs →
    (Z.of_nat (length table + length strs) ≤ 2 ^ 64)%Z →
    ∃ this', m this = Ok (tt, this').

(** The first span of the scenario, for the service ['constructor']. *)
Definition span_constructor : Span :=
  with_strings span_a (Some "constructor"%string) (name span_a)
    (resource span_a) (type span_a).

(** * The runner of the plugin test suites

    The second source file runs the test suite of an instrumented package
    twice, without and with the tracer, in a fresh clone, and compares the
    two runs.  Its child processes, the temporary directory and the lookup of
    the latest release are the host's: the host answers each request, and the
    runner is modelled over its answers, with the requests it made kept in
    the world it threads. *)

Module Suites.

(** What a child process leaves behind: its exit code, [null] ([None]) when a
    signal ended it, and what it wrote. *)
Record ExecResult := mkResult {
  code : option Z;
  stdout : string;
  stderr : string
}.

(** The options [exec] receives: the properties [cwd] and [env], when
    given. *)
Record ExecOpts := mkOpts {
  cwd : option string;
  env : option (gmap string string)
}.

Definition no_opts : ExecOpts := mkOpts None None.

(** The world: the commands spawned so far, with their options, and what was
    written to the standard output. *)
Record World := mkWorld {
  spawned : list (string * ExecOpts);
  written : list string
}.

(** What a promise is rejected with. *)
Inductive Thrown :=
  | HostError
  | CommandError (message : string) (result : ExecResult)
  | AssertionError.

Inductive Outcome (A : Type) :=
  | Returned (a : A)
  | Rejected (e : Thrown).
Arguments Returned {A} a.
Arguments Rejected {A} e.

(** An asynchronous function, awaited: it changes the world and is fulfilled
    or rejected. *)
Definition Task (A : Type) : Type := World → Outcome A * World.

Definition resolve {A} (a : A) : Task A := λ w, (Returned a, w).

Definition reject {A} (e : Thrown) : Task A := λ w, (Rejected e, w).

Definition await {A B} (m : Task A) (k : A → Task B) : Task B :=
  λ w,
    match m w with
    | (Returned a, w') => k a w'
    | (Rejected e, w') => (Rejected e, w')
    end.

(** The host: what a spawned command does, given the commands before it
    ([None]: it could not be spawned); the directory [mkdtemp] makes; the
    answer of [getLatest], which asks the registry and the repository host;
    the environment, [os.tmpdir ()], [path.join] and the resolved path of
    the tracer's init file. *)
Record Host := mkHost {
  spawn : list (string * ExecOpts) → string → ExecOpts → option ExecResult;
  mkdtemp : World → string → option string;
  getLatest : string → string → Task (option string);
  process_env : gmap string string;
  tmpdir : string;
  path_join : string → string → string;
  ddTraceInit : string
}.

Definition quote : string := String (Ascii.ascii_of_nat 34) EmptyString.
Definition newline : string := String (Ascii.ascii_of_nat 10) EmptyString.

(** A value in a template literal: [undefined] and [null] by their names. *)
Definition template_string (v : option string) : string :=
  default "undefined"%string v.

Definition template_code (v : option Z) : string :=
  match v with
  | Some n => pretty n
  | None => "null"%string
  end.

(** [log (str)]: [process.stdout.write] *)
Definition log (str : string) : Task unit :=
  λ w, (Returned tt,
        mkWorld (spawned w) (written w ++ [" -> " +:+ str +:+ " ... "])).

(** [console.log (str)] *)
Definition console_log (str : string) : Task unit :=
  λ w, (Returned tt, mkWorld (spawned w) (written w ++ [str +:+ newline])).

(** [logDone ()] *)
Definition logDone : Task unit := console_log "-> done!".

(** [exec (cmd, opts = {})]: the command is spawned in a shell with the
    options given; the promise is fulfilled with the exit code and the output
    when the process exits, and rejected when it could not be spawned. *)
Definition exec (host : Host) (cmd : string) (opts : ExecOpts)
  : Task ExecResult :=
  λ w,
    let w' := mkWorld (spawned w ++ [(cmd, opts)]) (written w) in
    match spawn host (spawned w) cmd opts with
    | Some result => (Returned result, w')
    | None => (Rejected HostError, w')
    end.

(** [execOrError (cmd, opts = {})] *)
Definition execOrError (host : Host) (cmd : string) (opts : ExecOpts)
  : Task ExecResult :=
  await (log ("running `" +:+ cmd +:+ "`")) (λ _,
  await (exec host cmd opts) (λ result,
  if decide (code result ≠ Some 0%Z) then
    reject (CommandError
              ("command " +:+ quote +:+ cmd +:+ quote +:+
               " exited with code " +:+ template_code (code result))
              result)
  else
    await logDone (λ _, resolve result))).

(** [getTmpDir ()] *)
Definition getTmpDir (host : Host) : Task string :=
  λ w,
    let prefix := path_join host (tmpdir host) "dd-trace-js-suites-" in
    match mkdtemp host w prefix with
    | Some dir => (Returned dir, w)
    | None => (Rejected HostError, w)
    end.

(** [runOne (modName, repoUrl, commitish, withTracer, testCmd)] *)
Definition runOne (host : Host) (modName repoUrl commitish : string)
    (withTracer : bool) (testCmd : string) : Task ExecResult :=
  await (if decide (commitish = "latest"%string) then
           await (log "getting `latest` commit hash") (λ _,
           await (getLatest host modName repoUrl) (λ commitish,
           await logDone (λ _, resolve commitish)))
         else resolve (Some commitish)) (λ commitish,
  await (getTmpDir host) (λ cwd,
  await (execOrError host
           ("git clone https://github.com/" +:+ repoUrl +:+ ".git " +:+ cwd)
           no_opts) (λ _,
  await (execOrError host
           ("git checkout " +:+ template_string commitish)
           (mkOpts (Some cwd) None)) (λ _,
  let env := process_env host in
  let env :=
    if withTracer
    then <["NODE_OPTIONS"%string := "--require " +:+ ddTraceInit host]> env
    else env in
  await (execOrError host "npm install" (mkOpts (Some cwd) None)) (λ _,
  await (exec host testCmd (mkOpts (Some cwd) (Some env))) (λ result,
  await (execOrError host ("rm -rf " +:+ cwd) no_opts) (λ _,
  resolve result))))))).

(** [run (modName, repoUrl, commitish, testCmd)]: the results without and
    with the tracer, in this order. *)
Definition run (host : Host) (modName repoUrl commitish testCmd : string)
  : Task (ExecResult * ExecResult) :=
  await (runOne host modName repoUrl commitish false testCmd)
    (λ withoutTracer,
  await (runOne host modName repoUrl commitish true testCmd) (λ withTracer,
  resolve (withoutTracer, withTracer))).

(** The report [defaultRunner] prints when an expectation fails. *)
Definition report (withoutTracer withTracer : ExecResult) : string :=
  "======= BEGIN STDOUT WITHOUT TRACER" +:+ newline +:+
  stdout withoutTracer +:+ newline +:+
  "======= BEGIN STDERR WITHOUT TRACER" +:+ newline +:+
  stderr withoutTracer +:+ newline +:+
  "======= BEGIN STDOUT WITH TRACER" +:+ newline +:+
  stdout withTracer +:+ newline +:+
  "======= BEGIN STDERR WITH TRACER" +:+ newline +:+
  stderr withTracer +:+ newline.

(** [defaultRunner ({ withoutTracer, withTracer })]: the two expectations, in
    order, are strict equalities; when one fails the report is printed and
    the failure thrown again. *)
Definition defaultRunner (results : ExecResult * ExecResult) : Task unit :=
  let '(withoutTracer, withTracer) := results in
  if decide (code withTracer = Some 0%Z) then
    if decide (code withTracer = code withoutTracer) then resolve tt
    else await (console_log (report withoutTracer withTracer))
           (λ _, reject AssertionError)
  else await (console_log (report withoutTracer withTracer))
         (λ _, reject AssertionError).

(** The test [runWithMocha] registers when it is given no runner:
    [runner.call (this, await run (modName, repoUrl, commitish, testCmd))]
    with [defaultRunner]. *)
Definition defaultTest (host : Host) (modName repoUrl commitish testCmd : string)
  : Task unit :=
  await (run host modName repoUrl commitish testCmd) defaultRunner.

(** The commands [runOne] spawns in the directory [dir], in order. *)
Definition clone_command (repoUrl dir : string) : string * ExecOpts :=
  ("git clone https://github.com/" +:+ repoUrl +:+ ".git " +:+ dir, no_opts).

Definition checkout_command (commitish dir : string) : string * ExecOpts :=
  ("git checkout " +:+ commitish, mkOpts (Some dir) None).

Definition install_command (dir : string) : string * ExecOpts :=
  ("npm install"%string, mkOpts (Some dir) None).

Definition test_command (host : Host) (withTracer : bool) (testCmd dir : string)
  : string * ExecOpts :=
  (testCmd,
   mkOpts (Some dir)
     (Some (if withTracer
            then <["NODE_OPTIONS"%string := "--require " +:+ ddTraceInit host]>
                   (process_env host)
            else process_env host))).

Definition remove_command (dir : string) : string * ExecOpts :=
  ("rm -rf " +:+ dir, no_opts).

(** The five of them. *)
Definition commands (host : Host) (repoUrl commitish : string)
    (withTracer : bool) (testCmd dir : string) : list (string * ExecOpts) :=
  [ clone_command repoUrl dir; checkout_command commitish dir;
    install_command dir; test_command host withTracer testCmd dir;
    remove_command dir ].

(** The prefix of the temporary directories. *)
Definition tmp_prefix (host : Host) : string :=
  path_join host (tmpdir host) "dd-trace-js-suites-".

(** Whether a command, spawned after [before], exits with code [0]. *)
Definition exits_zero (host : Host) (before : list (string * ExecOpts))
    (command : string * ExecOpts) : Prop :=
  ∃ result, spawn host before command.1 command.2 = Some result ∧
            code result = Some 0%Z.

(** A host for examples: every command exits with the code [codes] gives
    it, [0] by default. *)
Definition example_host (codes : gmap string Z) : Host :=
  mkHost
    (λ _ cmd _, Some (mkResult (Some (default 0%Z (codes !! cmd))) "" ""))
    (λ _ prefix, Some (prefix +:+ "abc"))
    (λ _ _, resolve None)
    ∅ "/tmp" (λ a b, a +:+ "/" +:+ b) "/dd/init".

Definition empty_world : World := mkWorld [] [].

End Suites.

(** * Properties *)

(** ** Buffers *)

Lemma be_bytes_length n v : length (be_bytes n v) = n.
Proof. induction n as [|n IH]; simpl; [done | by rewrite IH]. Qed.

Lemma allocUnsafe_length heap size : length (allocUnsafe heap size) = size.
Proof. unfold allocUnsafe. by rewrite length_fmap, length_seq. Qed.

Lemma write_at_length buffer offset bs :
  length (write_at buffer offset bs) = length buffer.
Proof.
  revert buffer offset. induction bs as [|b bs IH]; intros buffer offset; simpl.
  - done.
  - by rewrite IH, length_insert.
Qed.

(** Writing over a window of the buffer replaces the window and nothing
    else. *)
Lemma write_at_window pre old post offset bs :
  offset = length pre →
  length old = length bs →
  write_at (pre ++ old ++ post) offset bs = pre ++ bs ++ post.
Proof.
  revert pre old offset.
  induction bs as [|b bs IH]; intros pre old offset -> Hlen.
  - destruct old; [done | discriminate].
  - destruct old as [|o old]; [discriminate|]. simpl in *.
    replace (length pre) with (length pre + 0) at 1 by lia.
    rewrite insert_app_r. simpl.
    replace (pre ++ b :: old ++ post) with ((pre ++ [b]) ++ old ++ post)
      by (by rewrite <- app_assoc).
    rewrite (IH (pre ++ [b]) old).
    + by rewrite <- app_assoc.
    + rewrite length_app. simpl. lia.
    + lia.
Qed.

Lemma split_length {A} (l : list A) a b :
  length l = a + b →
  ∃ l1 l2, l = l1 ++ l2 ∧ length l1 = a ∧ length l2 = b.
Proof.
  intros Hlen. exists (take a l), (drop a l). split_and!.
  - by rewrite take_drop.
  - rewrite length_take. lia.
  - rewrite length_drop. lia.
Qed.

(** A copy of a whole chunk into a window that holds it. *)
Lemma copy_window source buffer pre old post offset :
  buffer = pre ++ old ++ post →
  offset = length pre →
  length old = length source →
  copy source buffer offset 0 (length source)
  = (pre ++ source ++ post, length source).
Proof.
  intros -> -> Hlen. unfold copy.
  rewrite drop_0, Nat.sub_0_r, firstn_all.
  assert (length source `min` (length (pre ++ old ++ post) - length pre)
          = length source) as ->.
  { rewrite !length_app. lia. }
  rewrite firstn_all. by rewrite (write_at_window pre old post).
Qed.

Lemma _writeArrayPrefix_window buffer pre old post offset count :
  buffer = pre ++ old ++ post →
  offset = length pre →
  length old = 5 →
  _writeArrayPrefix buffer offset count
  = (pre ++ (0xdd%Z :: be_bytes 4 count) ++ post, offset + 5).
Proof.
  intros -> Hoff Hlen. unfold _writeArrayPrefix.
  by rewrite (write_at_window pre old post).
Qed.

(** The contents of the buffer after the stores of [makePayload], whatever
    the buffer held before, and the offset reached. *)
Lemma fill_payload_contents this buffer :
  length buffer = payload_size this →
  fill_payload this buffer
  = ([ARRAY_OF_TWO] ++ (0xdd%Z :: be_bytes 4 (_stringCount this)) ++
     _stringBytes this ++ (0xdd%Z :: be_bytes 4 (_traceCount this)) ++
     _traceBytes this,
     payload_size this).
Proof.
  unfold payload_size. intros Hlen.
  destruct (split_length buffer 1 (length (_stringBytes this) + 5
              + (length (_traceBytes this) + 5)))
    as (b0 & rest & -> & Hb0 & Hrest); [lia|].
  destruct (split_length rest 5 (length (_stringBytes this)
              + (length (_traceBytes this) + 5)))
    as (h1 & rest1 & -> & Hh1 & Hrest1); [lia|].
  destruct (split_length rest1 (length (_stringBytes this))
              (length (_traceBytes this) + 5))
    as (s & rest2 & -> & Hs & Hrest2); [lia|].
  destruct (split_length rest2 5 (length (_traceBytes this)))
    as (h2 & t & -> & Hh2 & Ht); [lia|].
  destruct b0 as [|x [|? ?]]; try discriminate. clear Hb0 Hlen Hrest Hrest1 Hrest2.
  set (sc := 0xdd%Z :: be_bytes 4 (_stringCount this)).
  set (tc := 0xdd%Z :: be_bytes 4 (_traceCount this)).
  assert (length sc = 5) as Hsc by (unfold sc; by rewrite length_cons, be_bytes_length).
  assert (length tc = 5) as Htc by (unfold tc; by rewrite length_cons, be_bytes_length).
  unfold fill_payload, _writeStrings, _writeTraces.
  change (<[0:=u8 ARRAY_OF_TWO]> ([x] ++ h1 ++ s ++ h2 ++ t))
    with ([ARRAY_OF_TWO] ++ h1 ++ s ++ h2 ++ t).
  change (0 + 1) with 1.
  rewrite (_writeArrayPrefix_window _ [ARRAY_OF_TWO] h1 (s ++ h2 ++ t))
    by done.
  fold sc. cbv beta iota.
  rewrite (copy_window _ _ ([ARRAY_OF_TWO] ++ sc) s (h2 ++ t)); cycle 1.
  { by rewrite <- !app_assoc. }
  { rewrite length_app, Hsc. done. }
  { done. }
  cbv beta iota.
  rewrite (_writeArrayPrefix_window _
             ([ARRAY_OF_TWO] ++ sc ++ _stringBytes this) h2 t); cycle 1.
  { by rewrite <- !app_assoc. }
  { rewrite !length_app, Hsc. simpl. lia. }
  { done. }
  fold tc. cbv beta iota.
  rewrite (copy_window _ _ ([ARRAY_OF_TWO] ++ sc ++ _stringBytes this ++ tc)
             t []); cycle 1.
  { by rewrite app_nil_r, <- !app_assoc. }
  { rewrite !length_app, Hsc, Htc. simpl. lia. }
  { done. }
  cbv beta iota. f_equal.
  - by rewrite app_nil_r, <- !app_assoc.
  - lia.
Qed.

(** ** The string table *)

Lemma intern_extends table v : ∃ ext, intern table v = table ++ ext.
Proof.
  unfold intern. case_decide.
  - exists []. by rewrite app_nil_r.
  - by exists [v].
Qed.

Lemma foldl_intern_extends strs table :
  ∃ ext, foldl intern table strs = table ++ ext.
Proof.
  revert table. induction strs as [|v strs IH]; intros table; simpl.
  - exists []. by rewrite app_nil_r.
  - destruct (intern_extends table v) as [e1 ->].
    destruct (IH (table ++ e1)) as [e2 ->].
    exists (e1 ++ e2). by rewrite app_assoc.
Qed.

Lemma intern_NoDup table v : NoDup table → NoDup (intern table v).
Proof.
  intros Hnd. unfold intern. case_decide; [done|].
  apply NoDup_app. split_and!; [done | | apply NoDup_singleton].
  intros x Hx ->%list_elem_of_singleton. done.
Qed.

Lemma intern_elem table v x : x ∈ intern table v ↔ x ∈ table ∨ x = v.
Proof.
  unfold intern. case_decide.
  - naive_solver.
  - rewrite elem_of_app, list_elem_of_singleton. done.
Qed.

Lemma foldl_intern_NoDup strs table :
  NoDup table → NoDup (foldl intern table strs).
Proof.
  revert table. induction strs as [|v strs IH]; intros table Hnd; simpl.
  - done.
  - by apply IH, intern_NoDup.
Qed.

Lemma foldl_intern_elem strs table x :
  x ∈ foldl intern table strs ↔ x ∈ table ∨ x ∈ strs.
Proof.
  revert table. induction strs as [|v strs IH]; intros table; simpl.
  - rewrite elem_of_nil. naive_solver.
  - rewrite IH, intern_elem, elem_of_cons. naive_solver.
Qed.

(** Interning a sequence adds its new strings in the order of their first
    occurrence. *)
Lemma foldl_intern_first_seen strs table :
  foldl intern table strs
  = table ++ filter (λ y, y ∉ table) (first_seen strs).
Proof.
  revert table. induction strs as [|v strs IH]; intros table; simpl.
  - by rewrite filter_nil, app_nil_r.
  - rewrite IH. unfold intern. rewrite filter_cons. case_decide as Hin.
    + rewrite decide_False by naive_solver. f_equal.
      rewrite list_filter_filter. apply list_filter_iff.
      intros y. split; [|naive_solver]. intros Hy. split; [done|].
      intros ->. done.
    + rewrite decide_True by done. rewrite <- app_assoc. simpl. do 2 f_equal.
      rewrite list_filter_filter. apply list_filter_iff.
      intros y. rewrite elem_of_app, list_elem_of_singleton. naive_solver.
Qed.

Lemma first_seen_intern strs : foldl intern [] strs = first_seen strs.
Proof.
  rewrite foldl_intern_first_seen. simpl.
  induction (first_seen strs) as [|x l IH]; [done|].
  rewrite filter_cons, decide_True by apply not_elem_of_nil. by f_equal.
Qed.

Lemma first_seen_NoDup strs : NoDup (first_seen strs).
Proof.
  rewrite <- first_seen_intern. apply foldl_intern_NoDup, NoDup_nil_2.
Qed.

Lemma first_seen_elem strs x : x ∈ first_seen strs ↔ x ∈ strs.
Proof.
  rewrite <- first_seen_intern, foldl_intern_elem, elem_of_nil. naive_solver.
Qed.

(** The table of a sequence with one more string at its end. *)
Lemma first_seen_snoc strs v :
  first_seen (strs ++ [v]) = intern (first_seen strs) v.
Proof. by rewrite <- !first_seen_intern, foldl_app. Qed.

(** As many entries as there are distinct strings. *)
Lemma first_seen_length strs :
  length (first_seen strs) = size (list_to_set strs : gset string).
Proof.
  rewrite <- (size_list_to_set (C := gset string)) by apply first_seen_NoDup.
  f_equal. apply set_eq. intros x.
  by rewrite !elem_of_list_to_set, first_seen_elem.
Qed.

(** ** The dictionary of the encoder *)

Lemma dict_inv_new : dict_inv [] new_AgentEncoder.
Proof.
  split; simpl.
  - apply NoDup_nil_2.
  - done.
  - intros v i. rewrite lookup_empty, lookup_nil. naive_solver.
  - done.
Qed.

(** A change that leaves the dictionary alone leaves its table alone. *)
Lemma dict_inv_same table this this' :
  dict_inv table this →
  _stringMap this' = _stringMap this →
  _stringCount this' = _stringCount this →
  _stringBytes this' = _stringBytes this →
  dict_inv table this'.
Proof.
  intros [Hnd Hc Hl Hb] Hm Hc' Hb'. split.
  - done.
  - by rewrite Hc'.
  - intros v i. by rewrite Hm.
  - by rewrite Hb'.
Qed.

Lemma dict_inv_elem table this v :
  dict_inv table this → is_Some (_stringMap this !! v) ↔ v ∈ table.
Proof.
  intros [Hnd Hc Hl Hb]. split.
  - intros [i Hi]. apply Hl in Hi as [_ Hi]. by eapply list_elem_of_lookup_2.
  - intros [n Hn]%list_elem_of_lookup_1. exists (Z.of_nat n).
    apply Hl. rewrite Nat2Z.id. split; [lia | done].
Qed.

(** An index of the dictionary is below the count. *)
Lemma dict_inv_bound table this v i :
  dict_inv table this →
  _stringMap this !! v = Some i →
  (0 ≤ i < _stringCount this)%Z.
Proof.
  intros [Hnd Hc Hl Hb] Hi. apply Hl in Hi as [Hpos Hi].
  apply lookup_lt_Some in Hi. lia.
Qed.

(** The dictionary has as many keys as the table has entries. *)
Lemma dict_inv_size table this :
  dict_inv table this → size (_stringMap this) = length table.
Proof.
  intros Hinv. rewrite <- size_dom.
  rewrite <- (size_list_to_set (C := gset string) table) by apply Hinv.
  f_equal. apply set_eq. intros v.
  by rewrite elem_of_dom, elem_of_list_to_set, (dict_inv_elem table).
Qed.

(** The dictionary only grows. *)
Lemma dict_inv_subseteq table ext this this' :
  dict_inv table this →
  dict_inv (table ++ ext) this' →
  _stringMap this ⊆ _stringMap this'.
Proof.
  intros [_ _ Hl _] [_ _ Hl' _]. apply map_subseteq_spec. intros v i Hi.
  apply Hl in Hi as [Hpos Hi]. apply Hl'. split; [done|].
  by apply lookup_app_l_Some.
Qed.

(** A name the dictionary object inherits is never interned. *)
Lemma _cacheString_inherited this v :
  inherited v = true → _cacheString v this = Ok (tt, this).
Proof.
  intros Hv. unfold _cacheString. by rewrite decide_True by by left.
Qed.

(** [_cacheString] interns a string that the dictionary object does not
    inherit, and touches nothing but the dictionary. *)
Lemma _cacheString_spec table this v :
  dict_inv table this →
  inherited v = false ∨ v ∈ table →
  ∃ this',
    _cacheString v this = Ok (tt, this') ∧
    dict_inv (intern table v) this' ∧
    _traceBytes this' = _traceBytes this ∧
    _traceCount this' = _traceCount this.
Proof.
  intros Hinv Hown. unfold _cacheString, intern.
  destruct (decide (v ∈ table)) as [Hin|Hout].
  - exists this.
    rewrite decide_True by (right; by apply (dict_inv_elem table this)).
    done.
  - destruct Hown as [Hown|?]; [|done].
    rewrite decide_False.
    2:{ intros [Hi|Hs]; [congruence|].
        by apply (dict_inv_elem table this) in Hs. }
    eexists. split; [reflexivity|].
    assert (v ∉ table) as Hv by done.
    destruct Hinv as [Hnd Hc Hl Hb]. split_and!; [split | done | done]; simpl.
    + apply NoDup_app. split_and!; [done | | apply NoDup_singleton].
      intros x Hx ->%list_elem_of_singleton. done.
    + rewrite length_app. simpl. lia.
    + intros v' i. destruct (decide (v = v')) as [<-|Hne].
      * rewrite lookup_insert_eq. split.
        -- intros [= <-]. rewrite Hc, Nat2Z.id. split; [lia|].
           by rewrite lookup_app_r, Nat.sub_diag.
        -- intros [Hpos Hi]. apply lookup_app_Some in Hi as [Hi|[Hge Hi]].
           ++ by apply list_elem_of_lookup_2 in Hi.
           ++ apply list_lookup_singleton_Some in Hi as [Hz _].
              f_equal. lia.
      * rewrite lookup_insert_ne by done. rewrite Hl. split.
        -- intros [Hpos Hi]. split; [done|]. by apply lookup_app_l_Some.
        -- intros [Hpos Hi]. split; [done|].
           apply lookup_app_Some in Hi as [Hi|[Hge Hi]]; [done|].
           apply list_lookup_singleton_Some in Hi as [_ ?]. done.
    + rewrite fmap_app, join_app, Hb. simpl. by rewrite app_nil_r.
Qed.

(** [_encodeString] returns only for a string whose index the dictionary
    holds once it is cached: one the object does not inherit, or one that is
    in the table. *)
Lemma _encodeString_own table this bytes value this' :
  dict_inv table this →
  _encodeString bytes value this = Ok (tt, this') →
  inherited (default ""%string value) = false
  ∨ default ""%string value ∈ table.
Proof.
  intros Hinv E.
  destruct (inherited (default ""%string value)) eqn:Hi; [|by left].
  right. unfold _encodeString, bind in E.
  rewrite (_cacheString_inherited _ _ Hi) in E.
  unfold _encodeInteger in E.
  destruct (_stringMap this !! default ""%string value) as [i|] eqn:Hv;
    [|done].
  apply (dict_inv_elem table this _ Hinv). by exists i.
Qed.

(** ** Wires *)

Lemma wire_seq_nil d : wire_seq [] d = Some [].
Proof. done. Qed.

Lemma wire_seq_cons w ws d b bs :
  w d = Some b →
  wire_seq ws d = Some bs →
  wire_seq (w :: ws) d = Some (b ++ bs).
Proof.
  unfold wire_seq. intros Hw (k & Hk & ->)%fmap_Some.
  simpl. rewrite Hw. simpl. rewrite Hk. done.
Qed.

Lemma wire_seq_cons_inv w ws d out :
  wire_seq (w :: ws) d = Some out →
  ∃ b bs, w d = Some b ∧ wire_seq ws d = Some bs ∧ out = b ++ bs.
Proof.
  unfold wire_seq. intros (k & Hk & ->)%fmap_Some. simpl in Hk.
  destruct (w d) as [b|]; [|done]. simpl in Hk.
  destruct (mapM (λ w0 : Wire, w0 d) ws) as [k'|]; [|done].
  simpl in Hk. injection Hk as <-. by exists b, (mjoin k').
Qed.

Lemma wire_bytes_mono bs : wire_mono (wire_bytes bs).
Proof. by intros d d' out _ H. Qed.

Lemma wire_integer_mono v : wire_mono (wire_integer v).
Proof. by intros d d' out _ H. Qed.

Lemma wire_index_mono v : wire_mono (wire_index v).
Proof.
  intros d d' out Hsub. unfold wire_index.
  intros (i & Hi & Hout)%bind_Some.
  by rewrite (lookup_weaken _ _ _ _ Hi Hsub).
Qed.

Lemma wire_seq_mono ws : Forall wire_mono ws → wire_mono (wire_seq ws).
Proof.
  induction 1 as [|w ws Hw Hws IH]; intros d d' out Hsub Hout.
  - done.
  - apply wire_seq_cons_inv in Hout as (b & bs & Hb & Hbs & ->).
    apply wire_seq_cons; [by eapply Hw | by eapply IH].
Qed.

Lemma wire_value_mono v : wire_mono (wire_value v).
Proof. destruct v; [apply wire_index_mono | apply wire_bytes_mono]. Qed.

Lemma wire_map_mono m : wire_mono (wire_map m).
Proof.
  apply wire_seq_mono. constructor; [apply wire_bytes_mono|].
  apply Forall_fmap, Forall_forall. intros entry _. simpl.
  apply wire_seq_mono. repeat constructor.
  - apply wire_index_mono.
  - apply wire_value_mono.
Qed.

Lemma span_wire_mono span : wire_mono (span_wire span).
Proof.
  apply wire_seq_mono. unfold span_fields.
  repeat constructor;
    auto using wire_bytes_mono, wire_integer_mono, wire_index_mono,
               wire_map_mono.
Qed.

Lemma trace_wire_mono trace : wire_mono (trace_wire trace).
Proof.
  apply wire_seq_mono. constructor; [apply wire_bytes_mono|].
  apply Forall_fmap, Forall_forall. intros span _. apply span_wire_mono.
Qed.

(** ** What the methods write *)

Lemma tracks_strs_eq m strs strs' w :
  tracks m strs w → strs = strs' → tracks m strs' w.
Proof. by intros H <-. Qed.

Lemma tracks_append bs :
  tracks (modify (chunk_append TraceBytes bs)) [] (wire_bytes (Some bs)).
Proof.
  intros table this this' Hinv [= <-]. simpl. split_and!.
  - by eapply dict_inv_same.
  - done.
  - by exists bs.
Qed.

Lemma tracks_encodeByte v :
  tracks (_encodeByte TraceBytes v) [] (wire_bytes (Some [u8 v])).
Proof. apply tracks_append. Qed.

Lemma tracks_encodeArrayPrefix {A} (value : list A) :
  tracks (_encodeArrayPrefix TraceBytes value) []
    (wire_bytes (Some (array_prefix_bytes (length value)))).
Proof. apply tracks_append. Qed.

Lemma tracks_encodeInteger v :
  tracks (_encodeInteger TraceBytes v) [] (wire_integer v).
Proof.
  intros table this this' Hinv. unfold _encodeInteger, wire_integer.
  destruct v as [n|]; [|done]. simpl.
  destruct (integer_bytes n) as [bs|]; [|done].
  intros H. by apply (tracks_append bs table this this').
Qed.

Lemma tracks_encodeId id :
  tracks (_encodeId TraceBytes id) [] (wire_bytes (id_bytes id)).
Proof.
  intros table this this' Hinv. unfold _encodeId.
  destruct (id_bytes id) as [bs|]; [|done].
  intros H. by apply (tracks_append bs table this this').
Qed.

Lemma tracks_encodeString v :
  tracks (_encodeString TraceBytes v) [default ""%string v] (wire_index v).
Proof.
  intros table this this' Hinv E.
  pose proof (_encodeString_own _ _ _ _ _ Hinv E) as Hown.
  revert E. unfold _encodeString, bind.
  destruct (_cacheString_spec table this (default ""%string v) Hinv Hown)
    as (mid & -> & Hmid & Hbytes & Hcount).
  intros Hint.
  destruct (tracks_encodeInteger _ _ mid this' Hmid Hint)
    as (Hinv' & Hcount' & bs & Hbs & Hbytes').
  simpl in Hinv'. split_and!.
  - done.
  - congruence.
  - exists bs. split; [|congruence].
    unfold wire_integer in Hbs. unfold wire_index.
    assert (_stringMap this' = _stringMap mid) as ->; [|done].
    unfold _encodeInteger in Hint.
    destruct (_stringMap mid !! default ""%string v) as [i|]; [|done].
    destruct (integer_bytes i); [|done]. by injection Hint as <-.
Qed.

(** One method after the other. *)
Lemma tracks_cons m ms strs strs' w ws :
  tracks m strs w →
  wire_mono w →
  tracks ms strs' (wire_seq ws) →
  tracks (m ;;; ms) (strs ++ strs') (wire_seq (w :: ws)).
Proof.
  intros Hm Hmono Hms table this this'' Hinv. unfold bind.
  destruct (m this) as [[[] this']|] eqn:E; [|done]. intros E'.
  destruct (Hm _ _ _ Hinv E) as (Hinv' & Hcount & b & Hb & Hbytes).
  destruct (Hms _ _ _ Hinv' E') as (Hinv'' & Hcount' & bs & Hbs & Hbytes').
  rewrite foldl_app. split_and!.
  - done.
  - congruence.
  - exists (b ++ bs). split.
    + apply wire_seq_cons; [|done]. eapply Hmono; [|done].
      destruct (foldl_intern_extends strs' (foldl intern table strs))
        as [ext Hext].
      rewrite Hext in Hinv''. by eapply dict_inv_subseteq.
    + rewrite Hbytes', Hbytes. by rewrite app_assoc.
Qed.

Lemma tracks_last m strs w :
  tracks m strs w → tracks m strs (wire_seq [w]).
Proof.
  intros Hm table this this' Hinv E.
  destruct (Hm _ _ _ Hinv E) as (Hinv' & Hcount & b & Hb & Hbytes).
  split_and!; [done..|]. exists b. split; [|done].
  rewrite <- (app_nil_r b). by apply wire_seq_cons.
Qed.

Lemma tracks_ret : tracks (ret tt) [] (wire_seq []).
Proof.
  intros table this this' Hinv [= <-]. split_and!; [done..|].
  exists []. by rewrite app_nil_r.
Qed.

Lemma tracks_for_of {A} (l : list A) body (strs : A → list string)
    (w : A → Wire) :
  (∀ x, tracks (body x) (strs x) (w x)) →
  (∀ x, wire_mono (w x)) →
  tracks (for_of l body) (mjoin (strs <$> l)) (wire_seq (w <$> l)).
Proof.
  intros Hbody Hmono. induction l as [|x l IH]; simpl.
  - apply tracks_ret.
  - by apply tracks_cons.
Qed.

Lemma tracks_encodeValue v :
  tracks (_encodeValue TraceBytes v) (value_strings v) (wire_value v).
Proof. destruct v; [apply tracks_encodeString | apply tracks_append]. Qed.

Lemma tracks_encodeMap value :
  tracks (_encodeMap TraceBytes value) (map_strings value) (wire_map value).
Proof.
  unfold _encodeMap, wire_map.
  eapply tracks_strs_eq.
  - apply tracks_cons; [apply tracks_append | apply wire_bytes_mono|].
    apply (tracks_for_of value _
             (λ entry, entry.1 :: value_strings entry.2)
             (λ entry, wire_seq [wire_index (Some entry.1);
                                 wire_value entry.2])).
    + intros entry.
      apply (tracks_cons _ _ [entry.1] (value_strings entry.2));
        [apply tracks_encodeString | apply wire_index_mono|].
      apply tracks_last, tracks_encodeValue.
    + intros entry. apply wire_seq_mono. repeat constructor.
      * apply wire_index_mono.
      * apply wire_value_mono.
  - done.
Qed.

(** The loop body of [_encode]: a span goes out as the tag of an array of
    twelve and its twelve fields, in order. *)
Lemma tracks_encode_span span :
  tracks (_encode_span TraceBytes span) (span_strings span) (span_wire span).
Proof.
  unfold _encode_span, span_wire, span_fields.
  eapply tracks_strs_eq.
  - apply tracks_cons; [apply tracks_encodeByte | apply wire_bytes_mono|].
    apply tracks_cons; [apply tracks_encodeString | apply wire_index_mono|].
    apply tracks_cons; [apply tracks_encodeString | apply wire_index_mono|].
    apply tracks_cons; [apply tracks_encodeString | apply wire_index_mono|].
    apply tracks_cons; [apply tracks_encodeId | apply wire_bytes_mono|].
    apply tracks_cons; [apply tracks_encodeId | apply wire_bytes_mono|].
    apply tracks_cons; [apply tracks_encodeId | apply wire_bytes_mono|].
    apply tracks_cons; [apply tracks_encodeInteger | apply wire_integer_mono|].
    apply tracks_cons; [apply tracks_encodeInteger | apply wire_integer_mono|].
    apply tracks_cons; [apply tracks_encodeInteger | apply wire_integer_mono|].
    apply tracks_cons; [apply tracks_encodeMap | apply wire_map_mono|].
    apply tracks_cons; [apply tracks_encodeMap | apply wire_map_mono|].
    apply tracks_last, tracks_encodeString.
  - done.
Qed.

Lemma tracks_encode trace :
  tracks (_encode TraceBytes trace) (trace_strings trace) (trace_wire trace).
Proof.
  unfold _encode, trace_wire, trace_strings.
  eapply tracks_strs_eq.
  - apply tracks_cons;
      [apply tracks_encodeArrayPrefix | apply wire_bytes_mono|].
    apply tracks_for_of; [apply tracks_encode_span | apply span_wire_mono].
  - done.
Qed.

(** ** Batches *)

Lemma encode_spec trace table this this' :
  dict_inv table this →
  encode trace this = Ok (tt, this') →
  dict_inv (foldl intern table (trace_strings trace)) this' ∧
  _traceCount this' = (_traceCount this + 1)%Z ∧
  ∃ bs, trace_wire trace (_stringMap this') = Some bs ∧
        _traceBytes this' = _traceBytes this ++ bs.
Proof.
  intros Hinv. unfold encode, bind, modify. intros E.
  eapply tracks_encode in E as (Hinv' & Hcount & bs & Hbs & Hbytes).
  - split_and!; [done | done | by exists bs].
  - by eapply dict_inv_same.
Qed.

Lemma encode_all_spec traces table this this' :
  dict_inv table this →
  encode_all traces this = Ok (tt, this') →
  dict_inv (foldl intern table (batch_strings traces)) this' ∧
  _traceCount this' = (_traceCount this + Z.of_nat (length traces))%Z ∧
  ∃ bs, batch_wire traces (_stringMap this') = Some bs ∧
        _traceBytes this' = _traceBytes this ++ bs.
Proof.
  unfold encode_all, batch_wire, batch_strings.
  revert table this. induction traces as [|t ts IH]; intros table this Hinv.
  - intros [= <-]. simpl. split_and!; [done | lia|].
    exists []. by rewrite app_nil_r.
  - simpl. unfold bind at 1.
    destruct (encode t this) as [[[] mid]|] eqn:E; [|done]. intros E'.
    destruct (encode_spec _ _ _ _ Hinv E) as (Hmid & Hcount & b & Hb & Hbytes).
    destruct (IH _ _ Hmid E') as (Hinv' & Hcount' & bs & Hbs & Hbytes').
    rewrite foldl_app. split_and!.
    + done.
    + lia.
    + exists (b ++ bs). split.
      * apply wire_seq_cons; [|done].
        eapply trace_wire_mono; [|done].
        destruct (foldl_intern_extends (mjoin (trace_strings <$> ts))
                    (foldl intern table (trace_strings t))) as [ext Hext].
        rewrite Hext in Hinv'. by eapply dict_inv_subseteq.
      * rewrite Hbytes', Hbytes. by rewrite app_assoc.
Qed.

(** A batch on a fresh encoder: the dictionary holds the strings of the batch
    in the order of their first occurrence, and the trace region is the wire
    of the batch under that dictionary. *)
Lemma run_spec traces this :
  run traces = Some this →
  dict_inv (first_seen (batch_strings traces)) this ∧
  _traceCount this = Z.of_nat (length traces) ∧
  batch_wire traces (_stringMap this) = Some (_traceBytes this).
Proof.
  unfold run.
  destruct (encode_all traces new_AgentEncoder) as [[[] this']|] eqn:E;
    [|done].
  intros [= ->].
  destruct (encode_all_spec _ _ _ _ dict_inv_new E)
    as (Hinv & Hcount & bs & Hbs & Hbytes).
  rewrite first_seen_intern in Hinv. simpl in *. split_and!.
  - done.
  - lia.
  - by rewrite Hbytes.
Qed.


(** A string of a span of a batch is a string of the batch. *)
Lemma string_fields_span_strings span v :
  v ∈ string_fields span → v ∈ span_strings span.
Proof.
  unfold string_fields, span_strings. rewrite !elem_of_cons, !elem_of_app.
  rewrite !elem_of_cons. naive_solver.
Qed.

Lemma span_strings_batch_strings traces trace span v :
  trace ∈ traces → span ∈ trace → v ∈ span_strings span →
  v ∈ batch_strings traces.
Proof.
  intros Ht Hs Hv. unfold batch_strings. apply list_elem_of_join.
  exists (trace_strings trace). split.
  - unfold trace_strings. apply list_elem_of_join.
    exists (span_strings span). split; [done|].
    apply list_elem_of_fmap. by exists span.
  - apply list_elem_of_fmap. by exists trace.
Qed.

(** Every string field of a batch has an index below the count. *)
Lemma run_string_index traces this trace span field :
  run traces = Some this →
  trace ∈ traces → span ∈ trace →
  field ∈ [service span; name span; resource span; type span] →
  ∃ i, _stringMap this !! default ""%string field = Some i ∧
       (0 ≤ i < _stringCount this)%Z ∧
       wire_index field (_stringMap this) = integer_bytes i.
Proof.
  intros Hrun Ht Hs Hf.
  destruct (run_spec _ _ Hrun) as (Hinv & _ & _).
  assert (default ""%string field ∈ batch_strings traces) as Hin.
  { eapply span_strings_batch_strings; [done..|].
    apply string_fields_span_strings. unfold string_fields.
    rewrite !elem_of_cons in Hf. rewrite !elem_of_cons.
    rewrite elem_of_nil in Hf. naive_solver. }
  apply first_seen_elem in Hin.
  apply (dict_inv_elem _ this _ Hinv) in Hin as [i Hi].
  exists i. split; [done|]. split; [by eapply dict_inv_bound|].
  unfold wire_index. by rewrite Hi.
Qed.

Lemma array_prefix_bytes_length len : 1 ≤ length (array_prefix_bytes len).
Proof.
  unfold array_prefix_bytes. repeat case_match; simpl; lia.
Qed.

(** A batch with a trace in it has written to the trace region. *)
Lemma run_nonempty traces this :
  traces ≠ [] → run traces = Some this → 1 ≤ length (_traceBytes this).
Proof.
  intros Hne Hrun. destruct (run_spec _ _ Hrun) as (_ & _ & Hwire).
  destruct traces as [|t ts]; [done|]. unfold batch_wire in Hwire.
  simpl in Hwire.
  apply wire_seq_cons_inv in Hwire as (b & bs & Hb & _ & ->).
  unfold trace_wire in Hb.
  apply wire_seq_cons_inv in Hb as (p & ps & Hp & _ & ->).
  injection Hp as <-. rewrite !length_app.
  pose proof (array_prefix_bytes_length (length t)). lia.
Qed.

Lemma NoDup_count_one (l : list string) v :
  NoDup l → v ∈ l → length (filter (λ x, x = v) l) = 1.
Proof.
  induction 1 as [|x l Hx Hnd IH]; [by intros ?%elem_of_nil|].
  rewrite filter_cons. intros [->|Hin]%elem_of_cons.
  - rewrite decide_True by done. simpl. f_equal.
    destruct (filter (λ y, y = x) l) as [|y k] eqn:E; [done|].
    assert (y ∈ filter (λ y, y = x) l) as [-> Hy]%list_elem_of_filter
      by (rewrite E; apply elem_of_cons; by left).
    done.
  - rewrite decide_False by (by intros ->). by apply IH.
Qed.

(** [makePayload] at work: the buffer and the encoder it leaves. *)
Lemma makePayload_eq heap this :
  makePayload heap this
  = ([ARRAY_OF_TWO] ++ (0xdd%Z :: be_bytes 4 (_stringCount this)) ++
     _stringBytes this ++ (0xdd%Z :: be_bytes 4 (_traceCount this)) ++
     _traceBytes this,
     new_AgentEncoder).
Proof.
  unfold makePayload.
  by rewrite fill_payload_contents by apply allocUnsafe_length.
Qed.

(** ** When the methods return *)

Lemma integer_ok_bytes n : integer_ok n → is_Some (integer_bytes n).
Proof.
  unfold integer_ok, integer_bytes. intros Hn.
  destruct (n <? - 2 ^ 63)%Z eqn:Hlow; [apply Z.ltb_lt in Hlow; lia|].
  repeat (case_match; [by eexists|]).
  repeat match goal with H : (_ <? _)%Z = false |- _ =>
    apply Z.ltb_ge in H end.
  lia.
Qed.

Lemma id_ok_bytes id : id_ok id → is_Some (id_bytes id).
Proof.
  unfold id_ok, id_bytes. intros Hid.
  rewrite (proj2 (Z.leb_le _ _)), (proj2 (Z.ltb_lt _ _)) by lia. by eexists.
Qed.

Lemma intern_length table v : length (intern table v) ≤ length table + 1.
Proof.
  unfold intern. case_decide; [lia|]. rewrite length_app. simpl. lia.
Qed.

Lemma foldl_intern_length strs table :
  length (foldl intern table strs) ≤ length table + length strs.
Proof.
  revert table. induction strs as [|v strs IH]; intros table; simpl; [lia|].
  pose proof (IH (intern table v)). pose proof (intern_length table v). lia.
Qed.

Lemma returns_strs_eq m strs strs' :
  returns m strs → strs = strs' → returns m strs'.
Proof. by intros H <-. Qed.

Lemma returns_append bytes bs :
  returns (modify (chunk_append bytes bs)) [].
Proof. intros table this _ _ _. by eexists. Qed.

Lemma returns_encodeInteger bytes n :
  integer_ok n → returns (_encodeInteger bytes (Some n)) [].
Proof.
  intros [bs Hbs]%integer_ok_bytes table this _ _ _. unfold _encodeInteger.
  rewrite Hbs. by eexists.
Qed.

Lemma returns_encodeId bytes id : id_ok id → returns (_encodeId bytes id) [].
Proof.
  intros [bs Hbs]%id_ok_bytes table this _ _ _. unfold _encodeId.
  rewrite Hbs. by eexists.
Qed.

Lemma returns_encodeString bytes v :
  returns (_encodeString bytes v) [default ""%string v].
Proof.
  intros table this Hinv Hown Hlen. unfold _encodeString, bind.
  apply Forall_cons in Hown as [Hown _].
  destruct (_cacheString_spec table this (default ""%string v) Hinv
              (or_introl Hown))
    as (mid & -> & Hmid & _ & _).
  assert (default ""%string v ∈ intern table (default ""%string v)) as Hin
    by (apply intern_elem; by right).
  apply (dict_inv_elem _ mid _ Hmid) in Hin as [i Hi]. rewrite Hi.
  apply returns_encodeInteger with (table := intern table (default ""%string v)).
  - pose proof (dict_inv_bound _ _ _ _ Hmid Hi) as Hbound.
    rewrite (dict_count _ _ Hmid) in Hbound.
    pose proof (intern_length table (default ""%string v)).
    simpl in Hlen. unfold integer_ok. lia.
  - done.
  - constructor.
  - simpl. pose proof (intern_length table (default ""%string v)).
    simpl in Hlen. lia.
Qed.

Lemma returns_cons m ms strs strs' w :
  returns m strs →
  tracks m strs w →
  returns ms strs' →
  returns (m ;;; ms) (strs ++ strs').
Proof.
  intros Hm Ht Hms table this Hinv Hown Hlen. rewrite length_app in Hlen.
  apply Forall_app in Hown as [Hown Hown'].
  unfold bind. destruct (Hm table this Hinv) as [mid E]; [done | lia|].
  rewrite E. destruct (Ht _ _ _ Hinv E) as (Hmid & _).
  apply (Hms _ _ Hmid); [done|].
  pose proof (foldl_intern_length strs table). lia.
Qed.

Lemma returns_for_of {A} (l : list A) body (strs : A → list string)
    (w : A → Wire) :
  Forall (λ x, returns (body x) (strs x)) l →
  (∀ x, tracks (body x) (strs x) (w x)) →
  returns (for_of l body) (mjoin (strs <$> l)).
Proof.
  intros Hall Ht. induction Hall as [|x l Hx Hl IH]; simpl.
  - intros table this _ _ _. by eexists.
  - by eapply returns_cons.
Qed.

Lemma returns_encodeValue v :
  returns (_encodeValue TraceBytes v) (value_strings v).
Proof. destruct v; [apply returns_encodeString | apply returns_append]. Qed.

Lemma returns_encodeMap value :
  returns (_encodeMap TraceBytes value) (map_strings value).
Proof.
  unfold _encodeMap. eapply returns_strs_eq.
  - eapply returns_cons; [apply returns_append | apply tracks_append|].
    apply (returns_for_of value _
             (λ entry, entry.1 :: value_strings entry.2)
             (λ entry, wire_seq [wire_index (Some entry.1);
                                 wire_value entry.2])).
    + apply Forall_forall. intros entry _.
      apply (returns_cons _ _ [entry.1] (value_strings entry.2)
               (wire_index (Some entry.1)));
        [apply returns_encodeString | apply tracks_encodeString|].
      apply returns_encodeValue.
    + intros entry.
      apply (tracks_cons _ _ [entry.1] (value_strings entry.2));
        [apply tracks_encodeString | apply wire_index_mono|].
      apply tracks_last, tracks_encodeValue.
  - done.
Qed.

Lemma or_number_ok v :
  (∀ n, v = Some n → integer_ok n) →
  ∃ n, or_number v 0 = Some n ∧ integer_ok n.
Proof.
  intros Hv. assert (integer_ok 0) as H0 by (unfold integer_ok; lia).
  destruct v as [n|]; simpl; [|by exists 0%Z].
  destruct (n =? 0)%Z; [by exists 0%Z|]. exists n. split; [done|]. by apply Hv.
Qed.

(** A span that keeps to the contract is encoded. *)
Lemma returns_encode_span span :
  valid_span span →
  returns (_encode_span TraceBytes span) (span_strings span).
Proof.
  intros (Ht & Hs & Hp & Hstart & Hdur & (e & He & Herr)).
  unfold _encode_span.
  destruct (or_number_ok _ Hstart) as (s & -> & Hs').
  destruct (or_number_ok _ Hdur) as (d & -> & Hd').
  rewrite He.
  eapply returns_strs_eq.
  - eapply returns_cons; [apply returns_append | apply tracks_append|].
    eapply returns_cons;
      [apply returns_encodeString | apply tracks_encodeString|].
    eapply returns_cons;
      [apply returns_encodeString | apply tracks_encodeString|].
    eapply returns_cons;
      [apply returns_encodeString | apply tracks_encodeString|].
    eapply returns_cons; [by apply returns_encodeId | apply tracks_encodeId|].
    eapply returns_cons; [by apply returns_encodeId | apply tracks_encodeId|].
    eapply returns_cons; [by apply returns_encodeId | apply tracks_encodeId|].
    eapply returns_cons;
      [by apply returns_encodeInteger | apply tracks_encodeInteger|].
    eapply returns_cons;
      [by apply returns_encodeInteger | apply tracks_encodeInteger|].
    eapply returns_cons;
      [by apply returns_encodeInteger | apply tracks_encodeInteger|].
    eapply returns_cons; [apply returns_encodeMap | apply tracks_encodeMap|].
    eapply returns_cons; [apply returns_encodeMap | apply tracks_encodeMap|].
    apply returns_encodeString.
  - done.
Qed.

Lemma returns_encode trace :
  Forall valid_span trace →
  returns (_encode TraceBytes trace) (trace_strings trace).
Proof.
  intros Hvalid. unfold _encode, trace_strings. eapply returns_strs_eq.
  - eapply returns_cons;
      [apply returns_append | apply tracks_encodeArrayPrefix|].
    apply (returns_for_of trace _ span_strings span_wire).
    + eapply Forall_impl; [done|]. apply returns_encode_span.
    + apply tracks_encode_span.
  - done.
Qed.

(** A batch of spans that keep to the contract is encoded, as long as its
    strings are no inherited names and fit in the indices of the table. *)
Lemma run_returns traces :
  Forall (Forall valid_span) traces →
  own_names (batch_strings traces) →
  (Z.of_nat (length (batch_strings traces)) ≤ 2 ^ 64)%Z →
  ∃ this, run traces = Some this.
Proof.
  intros Hvalid Hown Hlen. unfold run, encode_all.
  assert (∀ table this,
            dict_inv table this →
            (Z.of_nat (length table + length (batch_strings traces)) ≤ 2 ^ 64)%Z →
            ∃ this', for_of traces encode this = Ok (tt, this')) as Hall.
  { clear Hlen. revert Hown.
    induction Hvalid as [|t ts Ht Hts IH]; intros Hown table this Hinv Hlen.
    - by eexists.
    - simpl. unfold bind at 1.
      change (batch_strings (t :: ts))
        with (trace_strings t ++ batch_strings ts) in Hlen, Hown.
      rewrite length_app in Hlen. apply Forall_app in Hown as [Hown Hown'].
      unfold encode at 1. unfold bind at 1, modify.
      set (counted := mkEncoder _ _ _ _ _).
      assert (dict_inv table counted) as Hc by by eapply dict_inv_same.
      destruct (returns_encode t Ht table counted Hc) as [mid E];
        [done | lia|].
      rewrite E. destruct (tracks_encode t _ _ _ Hc E) as (Hmid & _).
      apply (IH Hown' _ _ Hmid).
      pose proof (foldl_intern_length (trace_strings t) table). lia. }
  destruct (Hall [] new_AgentEncoder dict_inv_new) as [this E]; [done|].
  exists this. unfold Trace. by rewrite E.
Qed.

(** * The claims *)

(** ** Assembling the payload *)

(** C1, as the specification states it, fails: for the empty batch
    [makePayload] allocates eleven bytes, one for the outer header and five
    for the header of each table, where the size of the specification, with
    a header as wide as the count of the table asks for, is three. *)
Lemma makePayload_size_not_spec :
  length (makePayload (λ _, 0%Z) new_AgentEncoder).1
  ≠ spec_payload_size new_AgentEncoder.
Proof. vm_compute. lia. Qed.

(** C1, amended: the buffer [makePayload] returns has exactly the size
    computed beforehand, one byte for the outer header plus, for each of the
    two tables, five bytes of header whatever its count and the length of its
    region; the stores end exactly at the end of the buffer and every byte of
    it is written, so that nothing of the memory it was allocated from is
    left in it. *)
Theorem makePayload_sizing heap this :
  length (makePayload heap this).1
  = 1 + (5 + length (_stringBytes this)) + (5 + length (_traceBytes this)) ∧
  length (makePayload heap this).1 = payload_size this ∧
  (fill_payload this (allocUnsafe heap (payload_size this))).2
  = length (makePayload heap this).1 ∧
  ∀ heap', (makePayload heap' this).1 = (makePayload heap this).1.
Proof.
  assert (length (makePayload heap this).1 = payload_size this) as Hlen.
  { unfold makePayload.
    rewrite fill_payload_contents by apply allocUnsafe_length.
    cbn [fst]. unfold payload_size. rewrite !length_app, !length_cons.
    rewrite !be_bytes_length. simpl. lia. }
  split_and!.
  - rewrite Hlen. unfold payload_size. lia.
  - done.
  - rewrite Hlen. by rewrite fill_payload_contents by apply allocUnsafe_length.
  - intros heap'. by rewrite !makePayload_eq.
Qed.

(** C8: the buffer [makePayload] returns starts with the byte [0x92], the
    header of an array of two; the section of the string table follows it and
    the section of the trace table comes last. For the empty batch it is the
    eleven bytes of [empty_payload]. *)
Theorem makePayload_layout heap this :
  (makePayload heap this).1
  = 0x92%Z :: string_table_section this ++ trace_table_section this ∧
  (_writeStrings this (allocUnsafe heap (payload_size this)) 1).2
  = 1 + length (string_table_section this) ∧
  (makePayload heap new_AgentEncoder).1 = empty_payload.
Proof.
  split_and!.
  - rewrite makePayload_eq. unfold string_table_section, trace_table_section.
    cbn [fst]. by rewrite <- !app_assoc.
  - unfold _writeStrings, _writeArrayPrefix, copy, string_table_section.
    cbn [snd]. rewrite drop_0, Nat.sub_0_r, firstn_all.
    rewrite write_at_length, allocUnsafe_length.
    rewrite length_app, length_cons, be_bytes_length.
    unfold payload_size. lia.
  - by rewrite makePayload_eq.
Qed.

(** C7: the last thing [makePayload] does is to put the encoder back in the
    state of a new one: both regions empty, the dictionary empty, both counts
    zero.  A batch without traces is assembled like any other, so calling
    [makePayload] again at once yields the empty payload, eleven bytes, and
    the payload of a batch with a trace in it is longer. *)
Theorem makePayload_resets heap this :
  (makePayload heap this).2 = new_AgentEncoder ∧
  (∀ heap', (makePayload heap' (makePayload heap this).2).1 = empty_payload) ∧
  (∀ traces this',
     traces ≠ [] → run traces = Some this' →
     length empty_payload < length (makePayload heap this').1).
Proof.
  split_and!.
  - by rewrite makePayload_eq.
  - intros heap'. by rewrite !makePayload_eq.
  - intros traces this' Hne Hrun. rewrite makePayload_eq. cbn [fst].
    pose proof (run_nonempty _ _ Hne Hrun).
    rewrite !length_app, !length_cons, !be_bytes_length. simpl. lia.
Qed.

Lemma makePayload_resets_witness :
  run scenario = Some scenario_encoder ∧
  length empty_payload < length (makePayload (λ _, 0%Z) scenario_encoder).1.
Proof.
  assert (run scenario = Some scenario_encoder) as Hrun
    by (vm_compute; reflexivity).
  split; [exact Hrun|].
  apply (proj2 (proj2 (makePayload_resets (λ _, 0%Z) new_AgentEncoder))
           scenario scenario_encoder).
  - discriminate.
  - exact Hrun.
Defined.

(** ** The dictionary *)

(** C3, at the input where the code fails it: a string that is the name of a
    member of [Object.prototype], such as ['constructor'], is found in the
    dictionary object by [value in this._stringMap] before it was ever
    stored there.  [_cacheString] therefore gives it no index: the
    dictionary, the count and the string region stay as they are, and
    [_encodeString] hands [_encodeInteger] what the object inherits under
    that name, which is no number, instead of an index. *)
Theorem inherited_name_not_interned this v :
  inherited v = true →
  _stringMap this !! v = None →
  _cacheString v this = Ok (tt, this) ∧
  (∀ bytes, _encodeString bytes (Some v) this = Throw SchemaViolation).
Proof.
  intros Hv Hnone. split.
  - by apply _cacheString_inherited.
  - intros bytes. unfold _encodeString, bind. simpl.
    rewrite (_cacheString_inherited _ _ Hv). by rewrite Hnone.
Qed.

Lemma inherited_name_not_interned_witness :
  _cacheString "constructor" new_AgentEncoder = Ok (tt, new_AgentEncoder) ∧
  _encodeString TraceBytes (Some "constructor"%string) new_AgentEncoder
  = Throw SchemaViolation ∧
  run [[span_constructor]] = None ∧
  is_Some (run [[span_a]]).
Proof.
  destruct (inherited_name_not_interned new_AgentEncoder "constructor")
    as [Hcache Hencode].
  - vm_compute. reflexivity.
  - vm_compute. reflexivity.
  - split; [exact Hcache|]. split; [exact (Hencode TraceBytes)|].
    split; [vm_compute; reflexivity|]. vm_compute. eexists. reflexivity.
Defined.

(** C2: every string field of every span of a batch is written in the trace
    region as an index of the dictionary, at least zero and below the count
    of strings that [makePayload] then finds; and [_encodeString] interns the
    string before it writes the reference: the index it writes is in the
    dictionary, below the count, when the reference goes into the region. *)
Theorem string_index_valid :
  (∀ traces this,
     run traces = Some this →
     batch_wire traces (_stringMap this) = Some (_traceBytes this) ∧
     ∀ trace span field,
       trace ∈ traces → span ∈ trace →
       field ∈ [service span; name span; resource span; type span] →
       ∃ i, _stringMap this !! default ""%string field = Some i ∧
            (0 ≤ i < _stringCount this)%Z ∧
            wire_index field (_stringMap this) = integer_bytes i) ∧
  (∀ table this value this',
     dict_inv table this →
     _encodeString TraceBytes value this = Ok (tt, this') →
     ∃ mid i bs,
       _cacheString (default ""%string value) this = Ok (tt, mid) ∧
       _stringMap mid !! default ""%string value = Some i ∧
       (0 ≤ i < _stringCount mid)%Z ∧
       integer_bytes i = Some bs ∧
       this' = chunk_append TraceBytes bs mid).
Proof.
  split.
  - intros traces this Hrun. split.
    + by destruct (run_spec _ _ Hrun) as (_ & _ & ?).
    + intros trace span field. by apply run_string_index.
  - intros table this value this' Hinv.
    intros E. pose proof (_encodeString_own _ _ _ _ _ Hinv E) as Hown.
    revert E. unfold _encodeString, bind.
    destruct (_cacheString_spec table this (default ""%string value) Hinv
                Hown)
      as (mid & -> & Hmid & _ & _).
    unfold _encodeInteger.
    destruct (_stringMap mid !! default ""%string value) as [i|] eqn:Hi;
      [|done].
    destruct (integer_bytes i) as [bs|] eqn:Hbs; [|done].
    intros [= <-]. exists mid, i, bs. split_and!; try done.
    + by eapply dict_inv_bound.
    + by eapply dict_inv_bound.
Qed.

Lemma string_index_valid_witness :
  run scenario = Some scenario_encoder ∧
  (∃ i, _stringMap scenario_encoder !! "web"%string = Some i ∧
        (0 ≤ i < _stringCount scenario_encoder)%Z) ∧
  (∃ mid i,
     _cacheString "web" new_AgentEncoder = Ok (tt, mid) ∧
     _stringMap mid !! "web"%string = Some i ∧
     (0 ≤ i < _stringCount mid)%Z).
Proof.
  assert (run scenario = Some scenario_encoder) as Hrun
    by (vm_compute; reflexivity).
  split; [exact Hrun|]. split.
  - destruct (proj2 (proj1 string_index_valid scenario scenario_encoder Hrun)
                [span_a; span_b] span_a (Some "web"%string))
      as (i & Hi & Hbound & _).
    + vm_compute. left.
    + left.
    + left.
    + exists i. split; [exact Hi | exact Hbound].
  - destruct (proj2 string_index_valid [] new_AgentEncoder (Some "web"%string)
                (chunk_append TraceBytes [0%Z]
                   (mkEncoder [] (string_bytes "web") {["web"%string := 0%Z]}
                      1 0)))
      as (mid & i & bs & Hmid & Hi & Hbound & _).
    + apply dict_inv_new.
    + vm_compute. reflexivity.
    + exists mid, i. split; [exact Hmid|]. split; [exact Hi | exact Hbound].
Defined.

(** ** Spans *)




(** C5: a string that is in the dictionary is not interned again:
    [_cacheString] leaves the dictionary, the string-byte region and the
    count as they are.  So when spans of two traces of a batch have the same
    service, the string table holds that string once and both spans are
    written with the same index. *)
Theorem cross_trace_dedup :
  (∀ this v i,
     _stringMap this !! v = Some i → _cacheString v this = Ok (tt, this)) ∧
  (∀ traces this trace1 trace2 span1 span2,
     run traces = Some this →
     trace1 ∈ traces → trace2 ∈ traces →
     span1 ∈ trace1 → span2 ∈ trace2 →
     default ""%string (service span1) = default ""%string (service span2) →
     let table := first_seen (batch_strings traces) in
     _stringBytes this = mjoin (string_bytes <$> table) ∧
     _stringCount this = Z.of_nat (length table) ∧
     length (filter (λ x, x = default ""%string (service span1)) table) = 1 ∧
     batch_wire traces (_stringMap this) = Some (_traceBytes this) ∧
     ∃ i, table !! Z.to_nat i = Some (default ""%string (service span1)) ∧
          wire_index (service span1) (_stringMap this) = integer_bytes i ∧
          wire_index (service span2) (_stringMap this) = integer_bytes i).
Proof.
  split.
  - intros this v i Hi. unfold _cacheString.
    by rewrite decide_True by (right; by rewrite Hi).
  - intros traces this trace1 trace2 span1 span2 Hrun H1 H2 Hs1 Hs2 Heq table.
    destruct (run_spec _ _ Hrun) as (Hinv & _ & Hwire). fold table in Hinv.
    destruct (run_string_index traces this trace1 span1 (service span1) Hrun)
      as (i & Hi & Hbound & Hw1); [done | done | by left|].
    split_and!.
    + apply Hinv.
    + apply Hinv.
    + apply NoDup_count_one; [apply Hinv|].
      apply (dict_inv_elem _ this _ Hinv). by exists i.
    + done.
    + exists i. split_and!.
      * by apply (dict_lookup _ _ Hinv) in Hi as [_ Hi].
      * done.
      * unfold wire_index. by rewrite <- Heq, Hi.
Qed.

Lemma cross_trace_dedup_witness :
  run [[span_a]; [span_b]] = Some scenario_encoder_two ∧
  length (filter (λ x, x = "web"%string)
            (first_seen (batch_strings [[span_a]; [span_b]]))) = 1 ∧
  _cacheString "web" scenario_encoder_two = Ok (tt, scenario_encoder_two).
Proof.
  assert (run [[span_a]; [span_b]] = Some scenario_encoder_two) as Hrun
    by (vm_compute; reflexivity).
  split; [exact Hrun|]. split.
  - destruct (proj2 cross_trace_dedup [[span_a]; [span_b]] scenario_encoder_two
                [span_a] [span_b] span_a span_b Hrun)
      as (_ & _ & Hone & _).
    + left.
    + right. left.
    + left.
    + left.
    + reflexivity.
    + exact Hone.
  - apply (proj1 cross_trace_dedup scenario_encoder_two "web"%string 0%Z).
    vm_compute. reflexivity.
Defined.

(** C6: an absent string field is the empty string: [_encodeString] gives an
    absent argument the value [''] and goes on as for any other string, with
    [_cacheString] and the index from the dictionary, so a span encodes the
    same with a field absent or empty; and in a batch every such field is
    written as the one index the empty string has in the table. *)
Theorem absent_string_interned :
  (∀ bytes, _encodeString bytes None = _encodeString bytes (Some ""%string)) ∧
  (∀ bytes,
     _encodeString bytes None
     = (_cacheString "" ;;;
        λ this, _encodeInteger bytes (_stringMap this !! ""%string) this)) ∧
  (∀ bytes span,
     _encode_span bytes span
     = _encode_span bytes
         (with_strings span
            (Some (default ""%string (service span)))
            (Some (default ""%string (name span)))
            (Some (default ""%string (resource span)))
            (Some (default ""%string (type span))))) ∧
  (∀ traces this trace span field,
     run traces = Some this →
     trace ∈ traces → span ∈ trace →
     field ∈ [service span; name span; resource span; type span] →
     field = None ∨ field = Some ""%string →
     ∃ i, _stringMap this !! ""%string = Some i ∧
          (0 ≤ i < _stringCount this)%Z ∧
          first_seen (batch_strings traces) !! Z.to_nat i = Some ""%string ∧
          wire_index field (_stringMap this) = integer_bytes i).
Proof.
  split_and!.
  - done.
  - done.
  - done.
  - intros traces this trace span field Hrun Ht Hs Hf Hempty.
    destruct (run_string_index _ _ _ _ _ Hrun Ht Hs Hf)
      as (i & Hi & Hbound & Hw).
    destruct (run_spec _ _ Hrun) as (Hinv & _ & _).
    assert (default ""%string field = ""%string) as Hd
      by (by destruct Hempty as [-> | ->]).
    rewrite Hd in Hi. exists i. split_and!; try done; try apply Hbound.
    by apply (dict_lookup _ _ Hinv) in Hi as [_ Hi].
Qed.

Lemma absent_string_interned_witness :
  run scenario = Some scenario_encoder ∧
  ∃ i, _stringMap scenario_encoder !! ""%string = Some i ∧
       wire_index (resource span_a) (_stringMap scenario_encoder)
       = integer_bytes i ∧
       wire_index (type span_b) (_stringMap scenario_encoder)
       = integer_bytes i.
Proof.
  assert (run scenario = Some scenario_encoder) as Hrun
    by (vm_compute; reflexivity).
  split; [exact Hrun|].
  pose proof (proj2 (proj2 (proj2 absent_string_interned))) as Hempty.
  destruct (Hempty scenario scenario_encoder [span_a; span_b] span_a
              (resource span_a) Hrun) as (i & Hi & _ & _ & Hw).
  - left.
  - left.
  - right. right. left.
  - left. reflexivity.
  - destruct (Hempty scenario scenario_encoder [span_a; span_b] span_b
                (type span_b) Hrun) as (j & Hj & _ & _ & Hw').
    + left.
    + right. left.
    + right. right. right. left.
    + right. reflexivity.
    + exists i. split; [exact Hi|]. split; [exact Hw|].
      rewrite Hw'. f_equal. congruence.
Defined.

(** ** Determinism and defaults *)

Lemma fresh_new this : fresh this → this = new_AgentEncoder.
Proof.
  intros [->|(heap & used & ->)]; [done|]. by rewrite makePayload_eq.
Qed.

(** C9: two encoders at the start of a batch, new or flushed, whatever they
    encoded before, that are given the same traces end with the same string
    table and the same indices, those of the distinct strings of the traces
    in the order of their first occurrence, and [makePayload] then returns
    the same bytes whatever the memory of its buffer held. *)
Theorem encoding_deterministic traces encoder1 encoder2 this1 this2 :
  fresh encoder1 → fresh encoder2 →
  encode_all traces encoder1 = Ok (tt, this1) →
  encode_all traces encoder2 = Ok (tt, this2) →
  _stringBytes this1 = _stringBytes this2 ∧
  _stringMap this1 = _stringMap this2 ∧
  _stringCount this1 = _stringCount this2 ∧
  _stringBytes this1
  = mjoin (string_bytes <$> first_seen (batch_strings traces)) ∧
  (∀ v i, _stringMap this1 !! v = Some i
          ↔ (0 ≤ i)%Z ∧
            first_seen (batch_strings traces) !! Z.to_nat i = Some v) ∧
  (∀ heap1 heap2, (makePayload heap1 this1).1 = (makePayload heap2 this2).1).
Proof.
  intros ->%fresh_new ->%fresh_new E1 E2.
  assert (this2 = this1) as -> by congruence.
  assert (run traces = Some this1) as Hrun by (unfold run; by rewrite E1).
  destruct (run_spec _ _ Hrun) as (Hinv & _ & _).
  split_and!; try done.
  - apply Hinv.
  - apply Hinv.
  - intros heap1 heap2. by rewrite !makePayload_eq.
Qed.

Lemma encoding_deterministic_witness :
  _stringMap scenario_encoder
  = _stringMap (default new_AgentEncoder
                  (match encode_all scenario
                           (makePayload (λ _, 7%Z) scenario_encoder_two).2 with
                   | Ok (_, this) => Some this
                   | Throw _ => None
                   end)).
Proof.
  set (flushed := (makePayload (λ _, 7%Z) scenario_encoder_two).2).
  destruct (encode_all scenario flushed) as [[[] this2]|] eqn:E2;
    [|vm_compute in E2; discriminate].
  apply (encoding_deterministic scenario new_AgentEncoder flushed
           scenario_encoder this2).
  - left. reflexivity.
  - right. exists (λ _, 7%Z), scenario_encoder_two. reflexivity.
  - vm_compute. reflexivity.
  - exact E2.
Defined.

Lemma bind_Ok_inv {A B} (m : Method A) (k : A → Method B) this r :
  bind m k this = Ok r → ∃ a mid, m this = Ok (a, mid) ∧ k a mid = Ok r.
Proof.
  unfold bind. destruct (m this) as [[a mid]|]; [|done]. by exists a, mid.
Qed.

Lemma or_number_default v : or_number v 0 = Some (default 0%Z v).
Proof.
  destruct v as [n|]; simpl; [|done].
  destruct (n =? 0)%Z eqn:Hn; [|done]. by apply Z.eqb_eq in Hn as ->.
Qed.

(** C10: of the three integers of a span, [_encode] writes the start and the
    duration with [0] in the place of one that is absent, the single byte
    [0], and the value itself otherwise; the error it hands to the integer
    encoder as it is.  So a span with a start and a duration absent is
    encoded, given an error and identifiers in range and strings the
    dictionary can take, and the same span without an error never is: for
    the integer encoder an absent value is outside its contract. *)
Theorem start_duration_default_error_none :
  (∀ prior this span this',
     run prior = Some this →
     _encode_span TraceBytes span this = Ok (tt, this') →
     ∃ head s d e tail,
       _traceBytes this' = _traceBytes this ++ head ++ s ++ d ++ e ++ tail ∧
       wire_seq
         [ wire_bytes (Some [0x9c%Z]); wire_index (service span);
           wire_index (name span); wire_index (resource span);
           wire_bytes (id_bytes (trace_id span));
           wire_bytes (id_bytes (span_id span));
           wire_bytes (id_bytes (parent_id span)) ]
         (_stringMap this') = Some head ∧
       integer_bytes (default 0%Z (start span)) = Some s ∧
       integer_bytes (default 0%Z (duration span)) = Some d ∧
       (start span = None → s = [0%Z]) ∧
       (duration span = None → d = [0%Z]) ∧
       (∃ n, error span = Some n ∧ integer_bytes n = Some e) ∧
       wire_seq
         [ wire_map (or_object (meta span) []);
           wire_map (or_object (metrics span) []); wire_index (type span) ]
         (_stringMap this') = Some tail) ∧
  (∀ prior this span,
     run prior = Some this →
     valid_span span →
     own_names (span_strings span) →
     (_stringCount this + Z.of_nat (length (span_strings span)) ≤ 2 ^ 64)%Z →
     ∃ this', _encode_span TraceBytes span this = Ok (tt, this')) ∧
  (∀ bytes span this r,
     error span = None → _encode_span bytes span this ≠ Ok r).
Proof.
  split_and!.
  - intros prior this span this' Hrun E.
    destruct (run_spec _ _ Hrun) as (Hinv & _ & _).
    destruct (tracks_encode_span span _ _ _ Hinv E)
      as (_ & _ & bs & Hbs & ->).
    unfold span_wire, span_fields in Hbs.
    apply wire_seq_cons_inv in Hbs as (b0 & r0 & H0 & Hbs & ->).
    apply wire_seq_cons_inv in Hbs as (b1 & r1 & H1 & Hbs & ->).
    apply wire_seq_cons_inv in Hbs as (b2 & r2 & H2 & Hbs & ->).
    apply wire_seq_cons_inv in Hbs as (b3 & r3 & H3 & Hbs & ->).
    apply wire_seq_cons_inv in Hbs as (b4 & r4 & H4 & Hbs & ->).
    apply wire_seq_cons_inv in Hbs as (b5 & r5 & H5 & Hbs & ->).
    apply wire_seq_cons_inv in Hbs as (b6 & r6 & H6 & Hbs & ->).
    apply wire_seq_cons_inv in Hbs as (s & r7 & Hs & Hbs & ->).
    apply wire_seq_cons_inv in Hbs as (d & r8 & Hd & Hbs & ->).
    apply wire_seq_cons_inv in Hbs as (e & tail & He & Htail & ->).
    unfold wire_integer in Hs, Hd, He.
    rewrite or_number_default in Hs, Hd. simpl in Hs, Hd.
    exists (b0 ++ b1 ++ b2 ++ b3 ++ b4 ++ b5 ++ b6 ++ []), s, d, e, tail.
    split_and!.
    + by rewrite app_nil_r, <- !app_assoc.
    + repeat (apply wire_seq_cons; [done|]). apply wire_seq_nil.
    + done.
    + done.
    + intros Hnone. rewrite Hnone in Hs. by injection Hs as <-.
    + intros Hnone. rewrite Hnone in Hd. by injection Hd as <-.
    + destruct (error span) as [n|]; [|done]. by exists n.
    + done.
  - intros prior this span Hrun Hvalid Hown Hroom.
    destruct (run_spec _ _ Hrun) as (Hinv & _ & _).
    apply (returns_encode_span span Hvalid _ this Hinv Hown).
    rewrite (dict_count _ _ Hinv) in Hroom. lia.
  - intros bytes span this r Herr E. unfold _encode_span in E.
    do 9 (apply bind_Ok_inv in E as (? & ? & _ & E)).
    apply bind_Ok_inv in E as (? & ? & E & _).
    by rewrite Herr in E.
Qed.

Lemma start_duration_default_error_none_witness :
  start span_a = None ∧
  (∃ this', _encode_span TraceBytes span_a scenario_encoder = Ok (tt, this')) ∧
  _encode_span TraceBytes (with_error span_a None) scenario_encoder
  ≠ Ok (tt, scenario_encoder).
Proof.
  assert (run scenario = Some scenario_encoder) as Hrun
    by (vm_compute; reflexivity).
  destruct start_duration_default_error_none as (Hwrites & Hreturns & Hnone).
  split; [reflexivity|]. split.
  - destruct (Hreturns scenario scenario_encoder span_a Hrun)
      as [this' E].
    + repeat constructor; unfold id_ok, integer_ok; simpl;
        try lia; try discriminate.
      exists 0%Z. split; [reflexivity | lia].
    + repeat constructor.
    + vm_compute. discriminate.
    + destruct (Hwrites scenario scenario_encoder span_a this' Hrun E)
        as (head & s & d & e & tail & _).
      exists this'. exact E.
  - apply (Hnone TraceBytes (with_error span_a None) scenario_encoder
             (tt, scenario_encoder)).
    reflexivity.
Defined.

(** * Further properties of the encoder *)

(** ** The dictionary, whatever the state of the encoder *)

(** [_cacheString] always returns.  Afterwards its string is in the
    dictionary object: with an index of its own, unless it is a name the
    object inherits.  A string that was in the object already, stored or
    inherited, leaves the encoder as it is.  In every case a string that had
    an index has kept it, the count went up by one at most, the string region
    was only added to and the trace region and the count of traces are what
    they were; caching the same string again changes nothing. *)
Theorem cacheString_grows this v :
  ∃ this',
    _cacheString v this = Ok (tt, this') ∧
    has_property (_stringMap this') v ∧
    (inherited v = false → is_Some (_stringMap this' !! v)) ∧
    (has_property (_stringMap this) v → this' = this) ∧
    _stringMap this ⊆ _stringMap this' ∧
    (∃ ext, _stringBytes this' = _stringBytes this ++ ext) ∧
    (_stringCount this ≤ _stringCount this' ≤ _stringCount this + 1)%Z ∧
    _traceBytes this' = _traceBytes this ∧
    _traceCount this' = _traceCount this ∧
    _cacheString v this' = Ok (tt, this').
Proof.
  unfold has_property. unfold _cacheString at 1.
  destruct (decide (inherited v = true ∨ is_Some (_stringMap this !! v)))
    as [Hin|Hout].
  - exists this. split; [done|]. split; [done|].
    split; [intros Hown; destruct Hin; [congruence | done]|].
    split; [done|]. split; [done|].
    split; [exists []; by rewrite app_nil_r|]. split; [lia|].
    split; [done|]. split; [done|].
    unfold _cacheString. by rewrite decide_True.
  - eexists. split; [reflexivity|]. simpl.
    assert (is_Some (<[v:=_stringCount this]> (_stringMap this) !! v)) as Hv
      by (rewrite lookup_insert_eq; by eexists).
    split; [by right|]. split; [done|]. split; [done|].
    split; [apply insert_subseteq; apply eq_None_not_Some; tauto|].
    split; [by eexists|]. split; [lia|]. split; [done|]. split; [done|].
    unfold _cacheString. simpl. rewrite decide_True; [done | by right].
Qed.

Lemma cacheString_grows_witness :
  _cacheString "constructor" scenario_encoder = Ok (tt, scenario_encoder) ∧
  ∃ this',
    _cacheString "db" scenario_encoder = Ok (tt, this') ∧
    is_Some (_stringMap this' !! "db"%string).
Proof.
  split.
  - destruct (cacheString_grows scenario_encoder "constructor")
      as (this' & E & _ & _ & Hsame & _).
    rewrite <- (Hsame (or_introl eq_refl)) at 2. exact E.
  - destruct (cacheString_grows scenario_encoder "db")
      as (this' & E & _ & Hown & _).
    exists this'. split; [exact E|]. apply Hown. reflexivity.
Defined.

(** ** The dictionary after a batch *)

(** After a batch the dictionary gives each string of the batch one
    index, its position among the distinct strings of the batch in the order
    of their first occurrence; the indices are the numbers from zero up to the
    count, two strings never share one, and the dictionary has as many keys
    as the batch has distinct strings.  A string that is not in the dictionary
    yet, and is no name the dictionary object inherits, is given the size of
    the dictionary as its index. *)
Theorem dictionary_first_seen traces this :
  run traces = Some this →
  let table := first_seen (batch_strings traces) in
  (∀ v i, _stringMap this !! v = Some i
          ↔ (0 ≤ i)%Z ∧ table !! Z.to_nat i = Some v) ∧
  (∀ v w i, _stringMap this !! v = Some i → _stringMap this !! w = Some i →
            v = w) ∧
  (∀ i, (0 ≤ i < _stringCount this)%Z → ∃ v, _stringMap this !! v = Some i) ∧
  _stringCount this = Z.of_nat (size (_stringMap this)) ∧
  size (_stringMap this) = size (list_to_set (batch_strings traces) : gset string) ∧
  (∀ v, inherited v = false → _stringMap this !! v = None →
        ∃ this', _cacheString v this = Ok (tt, this') ∧
                 _stringMap this'
                 = <[v := Z.of_nat (size (_stringMap this))]> (_stringMap this) ∧
                 _stringCount this' = (_stringCount this + 1)%Z ∧
                 _stringBytes this' = _stringBytes this ++ string_bytes v).
Proof.
  intros Hrun table. destruct (run_spec _ _ Hrun) as (Hinv & _ & _).
  fold table in Hinv. pose proof (dict_inv_size _ _ Hinv) as Hsize.
  destruct Hinv as [Hnd Hc Hl Hb]. split_and!.
  - done.
  - intros v w i [_ Hv]%Hl [_ Hw]%Hl. congruence.
  - intros i [Hpos Hlt]. rewrite Hc in Hlt.
    destruct (lookup_lt_is_Some_2 table (Z.to_nat i)) as [v Hv]; [lia|].
    exists v. by apply Hl.
  - by rewrite Hsize.
  - rewrite Hsize. apply first_seen_length.
  - intros v Hown Hv. unfold _cacheString.
    rewrite decide_False
      by (rewrite Hv; intros [?|[? ?]]; [congruence | done]).
    eexists. split; [reflexivity|]. simpl. by rewrite Hsize, Hc.
Qed.

Lemma dictionary_first_seen_witness :
  run scenario = Some scenario_encoder ∧
  _stringMap scenario_encoder !! "GET /b"%string = Some 3%Z ∧
  _stringCount scenario_encoder = 4%Z.
Proof.
  assert (run scenario = Some scenario_encoder) as Hrun
    by (vm_compute; reflexivity).
  split; [exact Hrun|].
  destruct (dictionary_first_seen scenario scenario_encoder Hrun)
    as (Hl & _ & _ & Hc & Hs & _).
  split.
  - apply Hl. vm_compute. split; [discriminate | reflexivity].
  - rewrite Hc, Hs. vm_compute. reflexivity.
Defined.

(** ** Batches that grow *)

Lemma encode_all_app traces more this :
  encode_all (traces ++ more) this
  = match encode_all traces this with
    | Ok (_, mid) => encode_all more mid
    | Throw e => Throw e
    end.
Proof.
  unfold encode_all. revert this.
  induction traces as [|t ts IH]; intros this; simpl; [done|].
  unfold bind at 1 2. destruct (encode t this) as [[[] mid]|]; [|done].
  apply IH.
Qed.

Lemma table_bytes_app (table ext : list string) :
  mjoin (string_bytes <$> (table ++ ext))
  = mjoin (string_bytes <$> table) ++ mjoin (string_bytes <$> ext).
Proof. by rewrite fmap_app, join_app. Qed.

(** When a batch has been encoded, so has each of its beginnings, and what
    the encoder held after the beginning is still there after the whole: the
    strings keep their indices, and both regions have only been added to.
    The count of traces is the number of [encode] calls. *)
Theorem batch_growth traces more this' :
  run (traces ++ more) = Some this' →
  ∃ this,
    run traces = Some this ∧
    _stringMap this ⊆ _stringMap this' ∧
    (∃ ext, _traceBytes this' = _traceBytes this ++ ext) ∧
    (∃ ext, _stringBytes this' = _stringBytes this ++ ext) ∧
    (_stringCount this ≤ _stringCount this')%Z ∧
    _traceCount this' = (_traceCount this + Z.of_nat (length more))%Z.
Proof.
  unfold run. rewrite encode_all_app.
  destruct (encode_all traces new_AgentEncoder) as [[[] this]|] eqn:E;
    [|done].
  destruct (encode_all more this) as [[[] this'']|] eqn:E'; [|done].
  intros [= ->]. exists this. split; [done|].
  destruct (encode_all_spec _ _ _ _ dict_inv_new E) as (Hinv & _ & _).
  destruct (encode_all_spec _ _ _ _ Hinv E')
    as (Hinv' & Hcount & bs & _ & Hbytes).
  destruct (foldl_intern_extends (batch_strings more)
              (foldl intern [] (batch_strings traces))) as [ext Hext].
  rewrite Hext in Hinv'. split_and!.
  - by eapply dict_inv_subseteq.
  - by exists bs.
  - exists (mjoin (string_bytes <$> ext)).
    by rewrite (dict_bytes _ _ Hinv'), (dict_bytes _ _ Hinv), table_bytes_app.
  - rewrite (dict_count _ _ Hinv'), (dict_count _ _ Hinv), length_app. lia.
  - done.
Qed.

Lemma batch_growth_witness :
  ∃ this,
    run [[span_a]] = Some this ∧
    _stringMap this ⊆ _stringMap scenario_encoder_two.
Proof.
  destruct (batch_growth [[span_a]] [[span_b]] scenario_encoder_two)
    as (this & Hrun & Hsub & _).
  - vm_compute. reflexivity.
  - exists this. split; [exact Hrun | exact Hsub].
Defined.

(** Encoding a trace adds to the table the distinct strings of the trace that
    have no index yet, in the order of their first occurrence, and nothing
    else: the count goes up by their number and the string region by their
    bytes.  A trace whose strings all have an index leaves the dictionary as
    it is. *)
Theorem encode_count_growth prior this trace this' :
  run prior = Some this →
  _encode TraceBytes trace this = Ok (tt, this') →
  let added :=
    filter (λ v, _stringMap this !! v = None)
      (first_seen (trace_strings trace)) in
  _stringCount this' = (_stringCount this + Z.of_nat (length added))%Z ∧
  _stringBytes this' = _stringBytes this ++ mjoin (string_bytes <$> added) ∧
  (∀ v i, v ∈ added → _stringMap this' !! v = Some i →
          (_stringCount this ≤ i)%Z) ∧
  (added = [] → _stringMap this' = _stringMap this) ∧
  _traceCount this' = _traceCount this.
Proof.
  intros Hrun E added. destruct (run_spec _ _ Hrun) as (Hinv & _ & _).
  set (table := first_seen (batch_strings prior)) in *.
  destruct (tracks_encode trace _ _ _ Hinv E) as (Hinv' & Hcount & _).
  rewrite foldl_intern_first_seen in Hinv'.
  assert (filter (λ y, y ∉ table) (first_seen (trace_strings trace)) = added)
    as Hadded.
  { apply list_filter_iff. intros v.
    rewrite <- (dict_inv_elem table this v Hinv).
    by rewrite eq_None_not_Some. }
  rewrite Hadded in Hinv'. split_and!.
  - rewrite (dict_count _ _ Hinv'), (dict_count _ _ Hinv), length_app. lia.
  - by rewrite (dict_bytes _ _ Hinv'), (dict_bytes _ _ Hinv), table_bytes_app.
  - intros v i Hv Hi. rewrite (dict_count _ _ Hinv).
    apply (dict_lookup _ _ Hinv') in Hi as [Hpos Hi].
    destruct (decide (Z.to_nat i < length table)) as [Hlt|]; [|lia].
    rewrite lookup_app_l in Hi by done.
    apply list_elem_of_lookup_2 in Hi.
    subst added. apply list_elem_of_filter in Hv as [Hnone _].
    apply (dict_inv_elem table this v Hinv) in Hi as [? ?]. congruence.
  - intros Hnil. rewrite Hnil, app_nil_r in Hinv'. apply map_eq. intros v.
    apply option_eq. intros i.
    by rewrite (dict_lookup _ _ Hinv'), (dict_lookup _ _ Hinv).
  - done.
Qed.

Lemma encode_count_growth_witness :
  ∃ this',
    _encode TraceBytes [span_a] scenario_encoder = Ok (tt, this') ∧
    _stringCount this' = _stringCount scenario_encoder ∧
    _stringMap this' = _stringMap scenario_encoder.
Proof.
  destruct (_encode TraceBytes [span_a] scenario_encoder) as [[[] this']|]
    eqn:E; [|vm_compute in E; discriminate].
  destruct (encode_count_growth scenario scenario_encoder [span_a] this')
    as (Hcount & _ & _ & Hmap & _).
  - vm_compute. reflexivity.
  - exact E.
  - exists this'. split; [reflexivity|]. split.
    + rewrite Hcount.
      replace (filter _ _) with (@nil string) by (vm_compute; reflexivity).
      simpl. lia.
    + apply Hmap. vm_compute. reflexivity.
Defined.

(** ** Writing the string table into any buffer *)

Lemma write_at_take buffer offset bs n :
  n ≤ offset → take n (write_at buffer offset bs) = take n buffer.
Proof.
  revert buffer offset. induction bs as [|b bs IH]; intros buffer offset Hn.
  - done.
  - simpl. rewrite IH by lia. by apply take_insert_ge.
Qed.

Lemma copy_length source target targetStart sourceStart sourceEnd :
  length (copy source target targetStart sourceStart sourceEnd).1
  = length target.
Proof. unfold copy. simpl. apply write_at_length. Qed.

(** [_writeStrings] never resizes the buffer and never touches a byte before
    [offset].  Where the buffer has room for the five bytes of the header and
    the string region, it writes exactly that window, leaves what follows it
    as it was, and returns the offset just past the window. *)
Theorem writeStrings_window this buffer offset :
  length (_writeStrings this buffer offset).1 = length buffer ∧
  take offset (_writeStrings this buffer offset).1 = take offset buffer ∧
  (offset + 5 + length (_stringBytes this) ≤ length buffer →
   _writeStrings this buffer offset
   = (take offset buffer ++
      (0xdd%Z :: be_bytes 4 (_stringCount this)) ++ _stringBytes this ++
      drop (offset + 5 + length (_stringBytes this)) buffer,
      offset + 5 + length (_stringBytes this))).
Proof.
  split_and!.
  - unfold _writeStrings, _writeArrayPrefix, copy. cbn [fst].
    by rewrite !write_at_length.
  - unfold _writeStrings, _writeArrayPrefix, copy. cbn [fst].
    rewrite write_at_take by lia. by rewrite write_at_take by lia.
  - intros Hroom.
    destruct (split_length buffer offset (length buffer - offset))
      as (pre & rest & -> & Hpre & Hrest); [lia|].
    rewrite length_app in Hroom.
    destruct (split_length rest 5 (length rest - 5))
      as (h & rest' & -> & Hh & Hrest'); [lia|].
    rewrite length_app in Hroom.
    destruct (split_length rest' (length (_stringBytes this))
                (length rest' - length (_stringBytes this)))
      as (s & post & -> & Hs & Hpost); [lia|].
    rewrite take_app_length' by done.
    replace (drop (offset + 5 + length (_stringBytes this))
               (pre ++ h ++ s ++ post)) with post.
    2:{ rewrite !app_assoc. rewrite drop_app_length'; [done|].
        rewrite !length_app. lia. }
    unfold _writeStrings.
    rewrite (_writeArrayPrefix_window _ pre h (s ++ post)) by done.
    cbv beta iota.
    rewrite (copy_window _ _
               (pre ++ 0xdd%Z :: be_bytes 4 (_stringCount this)) s post);
      cycle 1.
    { by rewrite <- app_assoc. }
    { rewrite length_app, length_cons, be_bytes_length. lia. }
    { done. }
    cbv beta iota. by rewrite <- app_assoc.
Qed.

Lemma writeStrings_window_witness :
  _writeStrings scenario_encoder (replicate 30 7%Z) 3
  = (take 3 (replicate 30 7%Z) ++
     (0xdd%Z :: be_bytes 4 (_stringCount scenario_encoder)) ++
     _stringBytes scenario_encoder ++
     drop (3 + 5 + length (_stringBytes scenario_encoder)) (replicate 30 7%Z),
     3 + 5 + length (_stringBytes scenario_encoder)).
Proof.
  apply (proj2 (proj2 (writeStrings_window scenario_encoder
                         (replicate 30 7%Z) 3))).
  vm_compute. lia.
Defined.

(** ** From the traces to the payload *)

(** The payload of a batch: the byte [0x92]; the header of the string table
    with the number of distinct strings of the batch and these strings in the
    order of their first occurrence; the header of the trace table with the
    number of traces and the traces as they were written.  The table never
    has more entries than strings were handed to [_encodeString]. *)
Theorem batch_payload traces this heap :
  run traces = Some this →
  let table := first_seen (batch_strings traces) in
  length table ≤ length (batch_strings traces) ∧
  ∃ wire,
    batch_wire traces (_stringMap this) = Some wire ∧
    (makePayload heap this).1
    = 0x92%Z ::
      (0xdd%Z :: be_bytes 4 (Z.of_nat (length table))) ++
      mjoin (string_bytes <$> table) ++
      (0xdd%Z :: be_bytes 4 (Z.of_nat (length traces))) ++ wire.
Proof.
  intros Hrun table. subst table.
  destruct (run_spec _ _ Hrun) as (Hinv & Hcount & Hwire).
  split.
  - rewrite <- first_seen_intern.
    pose proof (foldl_intern_length (batch_strings traces) []). simpl in *. lia.
  - exists (_traceBytes this). split; [done|].
    rewrite makePayload_eq. cbn [fst].
    by rewrite (dict_count _ _ Hinv), <- (dict_bytes _ _ Hinv), Hcount.
Qed.

Lemma batch_payload_witness :
  ∃ wire,
    batch_wire scenario (_stringMap scenario_encoder) = Some wire ∧
    (makePayload (λ _, 7%Z) scenario_encoder).1
    = 0x92%Z ::
      (0xdd%Z :: be_bytes 4 4) ++
      mjoin (string_bytes <$> ["web"; "GET /a"; ""; "GET /b"]%string) ++
      (0xdd%Z :: be_bytes 4 1) ++ wire.
Proof.
  destruct (batch_payload scenario scenario_encoder (λ _, 7%Z))
    as (_ & wire & Hwire & Hpayload).
  - vm_compute. reflexivity.
  - exists wire. split; [exact Hwire | exact Hpayload].
Defined.

(** * Properties of the runner of the test suites *)

(** [execOrError] by the answer of the host: the command is always spawned
    and announced; it returns when the process exits with code [0], and is
    rejected when it exits with another code, or with none, or cannot be
    spawned. *)
Lemma execOrError_eq host cmd opts w :
  Suites.execOrError host cmd opts w
  = let announced :=
      Suites.written w ++ [" -> " +:+ ("running `" +:+ cmd +:+ "`") +:+ " ... "] in
    let calls := Suites.spawned w ++ [(cmd, opts)] in
    match Suites.spawn host (Suites.spawned w) cmd opts with
    | Some result =>
        if decide (Suites.code result = Some 0%Z) then
          (Suites.Returned result,
           Suites.mkWorld calls
             (announced ++ ["-> done!" +:+ Suites.newline]))
        else
          (Suites.Rejected
             (Suites.CommandError
                ("command " +:+ Suites.quote +:+ cmd +:+ Suites.quote +:+
                 " exited with code " +:+
                 Suites.template_code (Suites.code result))
                result),
           Suites.mkWorld calls announced)
    | None => (Suites.Rejected Suites.HostError, Suites.mkWorld calls announced)
    end.
Proof.
  unfold Suites.execOrError, Suites.await, Suites.log, Suites.exec. simpl.
  destruct (Suites.spawn host (Suites.spawned w) cmd opts) as [result|];
    [|done].
  destruct (decide (Suites.code result = Some 0%Z)) as [Hz|Hnz].
  - by rewrite decide_False by (by intros ?).
  - by rewrite decide_True by done.
Qed.

Lemma execOrError_returned host cmd opts w result w' :
  Suites.execOrError host cmd opts w = (Suites.Returned result, w') →
  Suites.spawn host (Suites.spawned w) cmd opts = Some result ∧
  Suites.code result = Some 0%Z ∧
  Suites.spawned w' = Suites.spawned w ++ [(cmd, opts)].
Proof.
  rewrite execOrError_eq. cbv zeta.
  destruct (Suites.spawn host (Suites.spawned w) cmd opts) as [r|]; [|done].
  destruct (decide (Suites.code r = Some 0%Z)); [|done].
  by intros [= -> <-].
Qed.

Lemma execOrError_rejected host cmd opts w e w' :
  Suites.execOrError host cmd opts w = (Suites.Rejected e, w') →
  ¬ Suites.exits_zero host (Suites.spawned w) (cmd, opts) ∧
  Suites.spawned w' = Suites.spawned w ++ [(cmd, opts)].
Proof.
  rewrite execOrError_eq. cbv zeta. unfold Suites.exits_zero. simpl.
  destruct (Suites.spawn host (Suites.spawned w) cmd opts) as [r|].
  - destruct (decide (Suites.code r = Some 0%Z)); [done|].
    intros [= <- <-]. split; [|done]. intros (r' & [= <-] & Hr). done.
  - intros [= <- <-]. split; [|done]. by intros (r' & ? & _).
Qed.

Lemma execOrError_exits_zero host cmd opts w :
  Suites.exits_zero host (Suites.spawned w) (cmd, opts) →
  ∃ result w',
    Suites.execOrError host cmd opts w = (Suites.Returned result, w') ∧
    Suites.spawned w' = Suites.spawned w ++ [(cmd, opts)].
Proof.
  intros (result & Hspawn & Hcode). simpl in Hspawn.
  rewrite execOrError_eq. cbv zeta. rewrite Hspawn.
  rewrite decide_True by done. by eexists _, _.
Qed.

Lemma runOne_pinned host modName repoUrl commitish withTracer testCmd w :
  commitish ≠ "latest"%string →
  Suites.runOne host modName repoUrl commitish withTracer testCmd w
  = match Suites.mkdtemp host w (Suites.tmp_prefix host) with
    | None => (Suites.Rejected Suites.HostError, w)
    | Some dir =>
        Suites.await
          (Suites.execOrError host (Suites.clone_command repoUrl dir).1
             Suites.no_opts) (λ _,
        Suites.await
          (Suites.execOrError host (Suites.checkout_command commitish dir).1
             (Suites.mkOpts (Some dir) None)) (λ _,
        Suites.await
          (Suites.execOrError host "npm install"
             (Suites.mkOpts (Some dir) None)) (λ _,
        Suites.await
          (Suites.exec host testCmd
             (Suites.test_command host withTracer testCmd dir).2) (λ result,
        Suites.await
          (Suites.execOrError host (Suites.remove_command dir).1
             Suites.no_opts) (λ _,
        Suites.resolve result))))) w
    end.
Proof.
  intros Hc. unfold Suites.runOne. rewrite decide_False by done.
  unfold Suites.await at 1. unfold Suites.resolve at 1.
  unfold Suites.await at 1. unfold Suites.getTmpDir, Suites.tmp_prefix.
  destruct (Suites.mkdtemp host w _) as [dir|]; [|done].
  by destruct withTracer.
Qed.

(** [runOne], for a fixed commit, returns exactly when the directory is made,
    the clone, the checkout and the install each exit with code [0], the test
    command can be spawned, and the removal of the directory exits with code
    [0]; it then returns the result of the test command, whatever its exit
    code.  The test command runs with [NODE_OPTIONS] set for the tracer when
    asked and with the environment as it is otherwise. *)
Theorem runOne_returns_iff host modName repoUrl commitish withTracer testCmd
    w result :
  commitish ≠ "latest"%string →
  (∃ w', Suites.runOne host modName repoUrl commitish withTracer testCmd w
         = (Suites.Returned result, w'))
  ↔ ∃ dir,
      Suites.mkdtemp host w (Suites.tmp_prefix host) = Some dir ∧
      let before := Suites.spawned w in
      let clone := Suites.clone_command repoUrl dir in
      let checkout := Suites.checkout_command commitish dir in
      let install := Suites.install_command dir in
      let test := Suites.test_command host withTracer testCmd dir in
      Suites.exits_zero host before clone ∧
      Suites.exits_zero host (before ++ [clone]) checkout ∧
      Suites.exits_zero host (before ++ [clone; checkout]) install ∧
      Suites.spawn host (before ++ [clone; checkout; install]) test.1 test.2
      = Some result ∧
      Suites.exits_zero host (before ++ [clone; checkout; install; test])
        (Suites.remove_command dir).
Proof.
  intros Hc. rewrite runOne_pinned by done.
  unfold Suites.clone_command, Suites.checkout_command,
    Suites.install_command, Suites.remove_command, Suites.test_command.
  cbn [fst snd]. split.
  - intros [w' Hrun].
    destruct (Suites.mkdtemp host w _) as [dir|]; [|done].
    exists dir. split; [done|]. cbv zeta.
    unfold Suites.await at 1 in Hrun.
    destruct (Suites.execOrError host _ _ w) as [[r1|e1] w1] eqn:E1; [|done].
    apply execOrError_returned in E1 as (S1 & C1 & W1).
    unfold Suites.await at 1 in Hrun.
    destruct (Suites.execOrError host _ _ w1) as [[r2|e2] w2] eqn:E2; [|done].
    apply execOrError_returned in E2 as (S2 & C2 & W2).
    unfold Suites.await at 1 in Hrun.
    destruct (Suites.execOrError host _ _ w2) as [[r3|e3] w3] eqn:E3; [|done].
    apply execOrError_returned in E3 as (S3 & C3 & W3).
    unfold Suites.await at 1 in Hrun. unfold Suites.exec in Hrun.
    destruct (Suites.spawn host (Suites.spawned w3) _ _) as [r4|] eqn:S4;
      [|done].
    unfold Suites.await at 1 in Hrun.
    destruct (Suites.execOrError host _ _ _) as [[r5|e5] w5] eqn:E5; [|done].
    apply execOrError_returned in E5 as (S5 & C5 & W5).
    injection Hrun as -> _. simpl in S5.
    rewrite W3, W2, W1 in S5. rewrite W3, W2, W1 in S4.
    rewrite W2, W1 in S3. rewrite W1 in S2.
    rewrite <- !app_assoc in S5. rewrite <- !app_assoc in S4.
    rewrite <- !app_assoc in S3.
    split_and!.
    + by exists r1.
    + by exists r2.
    + by exists r3.
    + done.
    + by exists r5.
  - intros (dir & -> & H1 & H2 & H3 & H4 & H5).
    destruct (execOrError_exits_zero _ _ _ w H1) as (r1 & w1 & E1 & W1).
    unfold Suites.await at 1. rewrite E1.
    rewrite <- W1 in H2.
    destruct (execOrError_exits_zero _ _ _ w1 H2) as (r2 & w2 & E2 & W2).
    unfold Suites.await at 1. rewrite E2.
    match type of H3 with Suites.exits_zero _ ?l _ =>
      replace l with (Suites.spawned w2) in H3
        by (rewrite W2, W1, <- ?app_assoc; done) end.
    destruct (execOrError_exits_zero _ _ _ w2 H3) as (r3 & w3 & E3 & W3).
    unfold Suites.await at 1. rewrite E3.
    match type of H4 with Suites.spawn _ ?l _ _ = _ =>
      replace l with (Suites.spawned w3) in H4
        by (rewrite W3, W2, W1, <- ?app_assoc; done) end.
    unfold Suites.await at 1. unfold Suites.exec. rewrite H4.
    set (w4 := Suites.mkWorld _ _).
    match type of H5 with Suites.exits_zero _ ?l _ =>
      replace l with (Suites.spawned w4) in H5
        by (subst w4; simpl; rewrite W3, W2, W1, <- ?app_assoc; done) end.
    destruct (execOrError_exits_zero _ _ _ w4 H5) as (r5 & w5 & E5 & W5).
    unfold Suites.await at 1. rewrite E5. by eexists.
Qed.

Lemma execOrError_returned_zero host cmd opts w result w' :
  Suites.execOrError host cmd opts w = (Suites.Returned result, w') →
  Suites.exits_zero host (Suites.spawned w) (cmd, opts) ∧
  Suites.spawned w' = Suites.spawned w ++ [(cmd, opts)].
Proof.
  intros (Hs & Hc & Hw)%execOrError_returned. split; [|done]. by exists result.
Qed.

(** [runOne], for a fixed commit, stops at the first command that fails, and
    that command is the last it spawns.  A clone that does not exit with code
    [0] ends it after the clone; a checkout after the checkout; an install
    after the install: the test command and the removal of the directory are
    then never spawned, and the directory stays.  A test command that cannot
    be spawned ends it as well.  Once the test command ran, whatever its exit
    code, all five commands are spawned, and the run is rejected only if the
    removal fails. *)
Theorem runOne_commands host modName repoUrl commitish withTracer testCmd
    w outcome w' dir :
  commitish ≠ "latest"%string →
  Suites.mkdtemp host w (Suites.tmp_prefix host) = Some dir →
  Suites.runOne host modName repoUrl commitish withTracer testCmd w
  = (outcome, w') →
  let before := Suites.spawned w in
  let clone := Suites.clone_command repoUrl dir in
  let checkout := Suites.checkout_command commitish dir in
  let install := Suites.install_command dir in
  let test := Suites.test_command host withTracer testCmd dir in
  let remove := Suites.remove_command dir in
  let rejected := ∃ e, outcome = Suites.Rejected e in
  (¬ Suites.exits_zero host before clone →
   rejected ∧ Suites.spawned w' = before ++ [clone]) ∧
  (Suites.exits_zero host before clone →
   ¬ Suites.exits_zero host (before ++ [clone]) checkout →
   rejected ∧ Suites.spawned w' = before ++ [clone; checkout]) ∧
  (Suites.exits_zero host before clone →
   Suites.exits_zero host (before ++ [clone]) checkout →
   ¬ Suites.exits_zero host (before ++ [clone; checkout]) install →
   rejected ∧ Suites.spawned w' = before ++ [clone; checkout; install]) ∧
  (Suites.exits_zero host before clone →
   Suites.exits_zero host (before ++ [clone]) checkout →
   Suites.exits_zero host (before ++ [clone; checkout]) install →
   Suites.spawn host (before ++ [clone; checkout; install]) test.1 test.2
   = None →
   rejected ∧ Suites.spawned w' = before ++ [clone; checkout; install; test]) ∧
  (Suites.exits_zero host before clone →
   Suites.exits_zero host (before ++ [clone]) checkout →
   Suites.exits_zero host (before ++ [clone; checkout]) install →
   is_Some (Suites.spawn host (before ++ [clone; checkout; install])
              test.1 test.2) →
   Suites.spawned w'
   = before ++ [clone; checkout; install; test; remove] ∧
   (rejected
    ↔ ¬ Suites.exits_zero host
          (before ++ [clone; checkout; install; test]) remove)).
Proof.
  intros Hc Hdir. rewrite runOne_pinned by done. rewrite Hdir.
  unfold Suites.clone_command, Suites.checkout_command,
    Suites.install_command, Suites.remove_command, Suites.test_command.
  cbn [fst snd]. cbv zeta. intros Hrun.
  unfold Suites.await at 1 in Hrun.
  destruct (Suites.execOrError host _ _ w) as [[r1|e1] w1] eqn:E1.
  2:{ injection Hrun as <- <-. apply execOrError_rejected in E1 as [N1 W1].
      split_and!; intros; try done. split; [by eexists | done]. }
  apply execOrError_returned_zero in E1 as (Z1 & W1).
  unfold Suites.await at 1 in Hrun.
  destruct (Suites.execOrError host _ _ w1) as [[r2|e2] w2] eqn:E2.
  2:{ injection Hrun as <- <-. apply execOrError_rejected in E2 as [N2 W2].
      rewrite W1 in N2. rewrite W2, W1, <- app_assoc. cbn [app].
      split_and!; intros; try done. split; [by eexists | done]. }
  apply execOrError_returned_zero in E2 as (Z2 & W2). rewrite W1 in Z2.
  unfold Suites.await at 1 in Hrun.
  destruct (Suites.execOrError host _ _ w2) as [[r3|e3] w3] eqn:E3.
  2:{ injection Hrun as <- <-. apply execOrError_rejected in E3 as [N3 W3].
      rewrite W2, W1, <- app_assoc in N3. cbn [app] in N3.
      rewrite W3, W2, W1, <- !app_assoc. cbn [app].
      split_and!; intros; try done. split; [by eexists | done]. }
  apply execOrError_returned_zero in E3 as (Z3 & W3).
  rewrite W2, W1, <- app_assoc in Z3. cbn [app] in Z3.
  unfold Suites.await at 1 in Hrun. unfold Suites.exec in Hrun.
  rewrite W3, W2, W1, <- !app_assoc in Hrun. simpl in Hrun.
  destruct (Suites.spawn host _ _ _) as [r4|] eqn:S4.
  2:{ injection Hrun as <- <-. simpl.
      split_and!; intros; try done.
      all: try (split; [by eexists | done]).
      all: try (exfalso; eapply is_Some_None; eassumption). }
  unfold Suites.await at 1 in Hrun.
  destruct (Suites.execOrError host _ _ _) as [[r5|e5] w5] eqn:E5.
  - injection Hrun as <- <-.
    apply execOrError_returned_zero in E5 as (Z5 & W5). simpl in Z5, W5.
    rewrite <- ?app_assoc in Z5. rewrite <- ?app_assoc in W5.
    cbn [app] in Z5, W5.
    split_and!; intros; try done. split; [done|].
    split; [by intros [? ?] | done].
  - injection Hrun as <- <-.
    apply execOrError_rejected in E5 as (N5 & W5). simpl in N5, W5.
    rewrite <- ?app_assoc in N5. rewrite <- ?app_assoc in W5.
    cbn [app] in N5, W5.
    split_and!; intros; try done. split; [done|].
    split; [done | by eexists].
Qed.

Lemma runOne_returns_iff_witness :
  ∃ dir,
    Suites.mkdtemp (Suites.example_host {["npm test"%string := 1%Z]})
      Suites.empty_world
      (Suites.tmp_prefix (Suites.example_host {["npm test"%string := 1%Z]}))
    = Some dir ∧
    Suites.exits_zero (Suites.example_host {["npm test"%string := 1%Z]}) []
      (Suites.remove_command dir).
Proof.
  destruct (proj1 (runOne_returns_iff
                     (Suites.example_host {["npm test"%string := 1%Z]})
                     "mod" "org/repo" "v1.0.0" true "npm test"
                     Suites.empty_world (Suites.mkResult (Some 1%Z) "" "")
                     ltac:(discriminate)))
    as (dir & Hdir & _ & _ & _ & _ & Hrm).
  - eexists. vm_compute. reflexivity.
  - exists dir. split; [exact Hdir|].
    destruct Hrm as (r & Hr & Hc). exists r. split; [exact Hr | exact Hc].
Defined.

Lemma runOne_commands_witness :
  ∃ e w',
    Suites.runOne (Suites.example_host {["npm install"%string := 1%Z]})
      "mod" "org/repo" "v1.0.0" true "npm test" Suites.empty_world
    = (Suites.Rejected e, w') ∧
    Suites.spawned w'
    = [ Suites.clone_command "org/repo" "/tmp/dd-trace-js-suites-abc";
        Suites.checkout_command "v1.0.0" "/tmp/dd-trace-js-suites-abc";
        Suites.install_command "/tmp/dd-trace-js-suites-abc" ].
Proof.
  destruct (Suites.runOne (Suites.example_host {["npm install"%string := 1%Z]})
              "mod" "org/repo" "v1.0.0" true "npm test" Suites.empty_world)
    as [outcome w'] eqn:E.
  destruct (runOne_commands
              (Suites.example_host {["npm install"%string := 1%Z]})
              "mod" "org/repo" "v1.0.0" true "npm test" Suites.empty_world
              outcome w' "/tmp/dd-trace-js-suites-abc")
    as (_ & _ & Hinstall & _); [discriminate | reflexivity | exact E |].
  destruct Hinstall as [[e ->] Hspawned].
  - eexists. split; [vm_compute; reflexivity | reflexivity].
  - eexists. split; [vm_compute; reflexivity | reflexivity].
  - intros (r & Hr & Hcode). vm_compute in Hr. injection Hr as <-.
    discriminate Hcode.
  - exists e, w'. split; [reflexivity | exact Hspawned].
Defined.

(** ** Comparing the two runs *)

Lemma defaultRunner_cases withoutTracer withTracer w :
  (Suites.code withoutTracer = Some 0%Z ∧ Suites.code withTracer = Some 0%Z →
   Suites.defaultRunner (withoutTracer, withTracer) w = (Suites.Returned tt, w)) ∧
  (¬ (Suites.code withoutTracer = Some 0%Z ∧
      Suites.code withTracer = Some 0%Z) →
   Suites.defaultRunner (withoutTracer, withTracer) w
   = (Suites.Rejected Suites.AssertionError,
      Suites.mkWorld (Suites.spawned w)
        (Suites.written w ++
         [Suites.report withoutTracer withTracer +:+ Suites.newline]))).
Proof.
  unfold Suites.defaultRunner. split.
  - intros [H1 H2]. rewrite decide_True by done.
    by rewrite decide_True by congruence.
  - intros Hnot. destruct (decide (Suites.code withTracer = Some 0%Z)) as [H2|];
      [|done].
    rewrite decide_False; [done|]. intros Heq. apply Hnot. split; congruence.
Qed.

(** [defaultRunner] accepts the two results exactly when both exit codes are
    [0], and then does nothing: two runs that fail alike are not accepted.
    In every other case, an exit code that is not [0] or none at all, it
    prints the report with the output of both runs, once, and fails. *)
Theorem defaultRunner_accepts_iff withoutTracer withTracer w outcome w' :
  Suites.defaultRunner (withoutTracer, withTracer) w = (outcome, w') →
  (outcome = Suites.Returned tt
   ↔ Suites.code withoutTracer = Some 0%Z ∧
     Suites.code withTracer = Some 0%Z) ∧
  (outcome = Suites.Returned tt → w' = w) ∧
  (outcome ≠ Suites.Returned tt →
   outcome = Suites.Rejected Suites.AssertionError ∧
   Suites.spawned w' = Suites.spawned w ∧
   Suites.written w'
   = Suites.written w ++
     [Suites.report withoutTracer withTracer +:+ Suites.newline]).
Proof.
  destruct (decide (Suites.code withoutTracer = Some 0%Z ∧
                    Suites.code withTracer = Some 0%Z)) as [Hz|Hnz].
  - rewrite (proj1 (defaultRunner_cases withoutTracer withTracer w) Hz).
    intros [= <- <-]. split_and!; done.
  - rewrite (proj2 (defaultRunner_cases withoutTracer withTracer w) Hnz).
    intros [= <- <-]. split_and!; done.
Qed.

Lemma defaultRunner_accepts_iff_witness :
  ∃ w',
    Suites.defaultRunner
      (Suites.mkResult (Some 1%Z) "" "", Suites.mkResult (Some 1%Z) "" "")
      Suites.empty_world
    = (Suites.Rejected Suites.AssertionError, w') ∧
    Suites.spawned w' = [].
Proof.
  destruct (Suites.defaultRunner
              (Suites.mkResult (Some 1%Z) "" "",
               Suites.mkResult (Some 1%Z) "" "") Suites.empty_world)
    as [outcome w'] eqn:E.
  destruct (defaultRunner_accepts_iff _ _ _ _ _ E) as (Hiff & _ & Hrej).
  destruct Hrej as (-> & Hspawned & _).
  - intros Hret. apply Hiff in Hret as [H _]. discriminate H.
  - exists w'. split; [reflexivity | exact Hspawned].
Defined.

(** The registered test passes exactly when the run without the tracer
    returns, the run with the tracer, started in the world the first one
    left, returns too, and both test commands exited with code [0].  The run
    without the tracer comes first; when it is rejected the run with the
    tracer is not started and the test fails with the same error. *)
Theorem defaultTest_passes_iff host modName repoUrl commitish testCmd w :
  (∀ w',
     Suites.defaultTest host modName repoUrl commitish testCmd w
     = (Suites.Returned tt, w')
     ↔ ∃ withoutTracer withTracer w1,
         Suites.runOne host modName repoUrl commitish false testCmd w
         = (Suites.Returned withoutTracer, w1) ∧
         Suites.runOne host modName repoUrl commitish true testCmd w1
         = (Suites.Returned withTracer, w') ∧
         Suites.code withoutTracer = Some 0%Z ∧
         Suites.code withTracer = Some 0%Z) ∧
  (∀ e w',
     Suites.runOne host modName repoUrl commitish false testCmd w
     = (Suites.Rejected e, w') →
     Suites.defaultTest host modName repoUrl commitish testCmd w
     = (Suites.Rejected e, w')).
Proof.
  unfold Suites.defaultTest, Suites.run. split.
  - intros w'. unfold Suites.await at 1 2.
    destruct (Suites.runOne host modName repoUrl commitish false testCmd w)
      as [[r1|e1] w1] eqn:E1.
    2:{ split; [done|]. by intros (? & ? & ? & ? & _). }
    unfold Suites.await at 1.
    destruct (Suites.runOne host modName repoUrl commitish true testCmd w1)
      as [[r2|e2] w2] eqn:E2.
    2:{ split; [done|]. intros (? & ? & ? & [= <- <-] & H2 & _).
        rewrite E2 in H2. done. }
    unfold Suites.resolve.
    destruct (decide (Suites.code r1 = Some 0%Z ∧ Suites.code r2 = Some 0%Z))
      as [Hz|Hnz].
    + rewrite (proj1 (defaultRunner_cases r1 r2 w2) Hz). split.
      * intros [= <-]. exists r1, r2, w1. by destruct Hz.
      * intros (? & ? & ? & [= <- <-] & H2 & _). rewrite E2 in H2.
        by injection H2 as _ <-.
    + rewrite (proj2 (defaultRunner_cases r1 r2 w2) Hnz). split; [done|].
      intros (? & ? & ? & [= <- <-] & H2 & Hc1 & Hc2). rewrite E2 in H2.
      injection H2 as <- _. by destruct Hnz.
  - intros e w' E. unfold Suites.await at 1 2. by rewrite E.
Qed.

Lemma defaultTest_passes_iff_witness :
  ∃ e w',
    Suites.defaultTest (Suites.example_host {["npm install"%string := 1%Z]})
      "mod" "org/repo" "v1.0.0" "npm test" Suites.empty_world
    = (Suites.Rejected e, w') ∧
    length (Suites.spawned w') = 3.
Proof.
  destruct (Suites.runOne (Suites.example_host {["npm install"%string := 1%Z]})
              "mod" "org/repo" "v1.0.0" false "npm test" Suites.empty_world)
    as [[r|e] w'] eqn:E; [vm_compute in E; discriminate|].
  exists e, w'. split.
  - apply (proj2 (defaultTest_passes_iff _ _ _ _ _ _) e w' E).
  - assert (length (Suites.spawned
              (Suites.runOne
                 (Suites.example_host {["npm install"%string := 1%Z]})
                 "mod" "org/repo" "v1.0.0" false "npm test"
                 Suites.empty_world).2) = 3) as Hlen
      by (vm_compute; reflexivity).
    rewrite E in Hlen. exact Hlen.
Defined.
